(** * The Kubernetes notification source of the EPP data layer

    A shallow embedding of [K8sNotificationSource] (package [notification])
    together with the parts of the [datalayer] interfaces it relies on, and
    the properties of registration ([AddExtractor]), introspection
    ([Extractors]), polling ([Collect]) and dispatch ([Notify]).  The flag
    helpers of package [options] ([AddFlags], the deprecation wrapper and
    the getters) follow, over a model of the parts of Go's package [flag]
    they call.

    Conventions of the embedding.
    - A method with a pointer receiver is a function from the receiver to the
      receiver after the call, paired with the method's result.
    - Everything an extractor may touch when it runs lives in an abstract
      [World]; an [ExtractNotification] method is a function on it.  The
      effects the source itself has on its surroundings are recorded in an
      [Env]: the world, the trace of extractor calls, and the log sink.
    - [sync.Map] is a finite map; [Range] walks an enumeration of it that the
      caller supplies, because Go leaves the iteration order open.  Every
      statement about [Range] holds for all enumerations that are a
      permutation of the map's content.
    - Concurrent use of the map, panics raised by plugins, and plugins that
      call back into the source while it dispatches are outside the
      embedding. *)

From Stdlib Require Import String Ascii DecimalString.
From stdpp Require Import gmap strings list fin_maps.

Set Warnings "-register-all".
Local Open Scope string_scope.
Local Open Scope list_scope.

(** ** Package [errors] and [fmt.Errorf] *)

Module errors.

(** A non-nil Go [error] value.  A nil error is [None : option error]. *)
Inductive error : Type :=
| errorString (s : string)               (* errors.New, fmt.Errorf without %w *)
| wrapError (msg : string) (err : error) (* fmt.Errorf with one %w *)
| joinError (errs : list error).         (* errors.Join *)

Definition newline : string := String (ascii_of_nat 10) EmptyString.

(** The [Error() string] method. *)
Fixpoint Error (e : error) : string :=
  match e with
  | errorString s => s
  | wrapError msg _ => msg
  | joinError errs =>
      (fix lines (l : list error) : string :=
         match l with
         | [] => ""
         | e0 :: l' =>
             match l' with
             | [] => Error e0
             | _ :: _ => Error e0 +:+ newline +:+ lines l'
             end
         end) errs
  end.

Definition New (text : string) : error := errorString text.

(** [errors.Join] drops nil arguments and returns nil when nothing is left. *)
Definition Join (errs : list (option error)) : option error :=
  match omap id errs with
  | [] => None
  | es => Some (joinError es)
  end.

End errors.

(** ** Package [plugin]: plugin identities *)

Module fwkplugin.

Record TypedName : Type := mkTypedName { Type_ : string; Name : string }.

#[global] Instance TypedName_eq_dec : EqDecision TypedName.
Proof. solve_decision. Defined.

(** Modelled from the spec: the [String] method of [TypedName] is declared
    outside the sources at hand; the specification gives the rendering
    ["<Type>/<Name>"], which is also what the [%s] verb prints. *)
Definition String_ (tn : TypedName) : string := Type_ tn +:+ "/" +:+ Name tn.

End fwkplugin.

(** ** Package [schema] *)

Module schema.
Record GroupVersionKind : Type :=
  mkGVK { Group : string; Version : string; Kind : string }.
End schema.

(** ** Substring test used to say that a message names something *)

Fixpoint contains (sub s : string) : bool :=
  String.prefix sub s ||
  match s with
  | EmptyString => false
  | String _ s' => contains sub s'
  end.

(** ** Package [datalayer]: events, contexts and extractor plugins *)

Module fwkdl.

Inductive EventType : Type :=
| EventAddOrUpdate   (* iota = 0 *)
| EventDelete.       (* 1 *)

(** [*unstructured.Unstructured]: an address in the world, or nil. *)
Definition ObjectRef : Type := option nat.

Record NotificationEvent : Type :=
  mkEvent { Type_ : EventType; Object : ObjectRef }.

(** Key/value pairs carried by a [logr.Logger]. *)
Inductive LogValue : Type :=
| LogGVK (g : schema.GroupVersionKind)
| LogEventType (t : EventType)
| LogText (s : string).

Definition Logger : Type := list (string * LogValue).

Definition WithValues (l : Logger) (kvs : list (string * LogValue)) : Logger :=
  l ++ kvs.

(** [context.Context]: whether it has been cancelled, and the logger that
    [log.FromContext] finds in it. *)
Record Context : Type :=
  mkContext { cancelled : bool; logger : Logger }.

Definition FromContext (ctx : Context) : Logger := logger ctx.

(** One record handed to the logging sink by [logger.Error]. *)
Record LogEntry : Type :=
  mkLogEntry { entry_values : Logger;
               entry_err : option errors.error;
               entry_msg : string }.

Section Plugins.
Variable World : Type.

Definition ExtractNotificationFn : Type :=
  Context -> NotificationEvent -> World -> World * option errors.error.

(** The dynamic value behind an [Extractor] interface (or behind [any]):
    every plugin has a [TypedName]; only some carry the
    [ExtractNotification] method. *)
Record Plugin : Type :=
  mkPlugin { TypedName : fwkplugin.TypedName;
             notification_method : option ExtractNotificationFn }.

(** A value of interface type [NotificationExtractor]: the dynamic value
    and the method the interface gives access to. *)
Record NotificationExtractor : Type :=
  mkNotificationExtractor { dynamic : Plugin;
                            ExtractNotification : ExtractNotificationFn }.

(** The type assertion [val.(fwkdl.NotificationExtractor)]. *)
Definition assertNotificationExtractor (val : Plugin)
  : option NotificationExtractor :=
  match notification_method val with
  | Some f => Some (mkNotificationExtractor val f)
  | None => None
  end.

Definition implementsNotificationExtractor (val : Plugin) : bool :=
  match notification_method val with Some _ => true | None => false end.

(** One observed call of [ExtractNotification]. *)
Record Call : Type :=
  mkCall { callee : Plugin;
           call_ctx : Context;
           call_event : NotificationEvent;
           call_result : option errors.error }.

Record Env : Type :=
  mkEnv { world : World; calls : list Call; logs : list LogEntry }.

(** [ext.ExtractNotification(ctx, event)] at a call site. *)
Definition invoke (ext : NotificationExtractor) (ctx : Context)
    (event : NotificationEvent) (env : Env) : option errors.error * Env :=
  let '(w, err) := ExtractNotification ext ctx event (world env) in
  (err, mkEnv w (calls env ++ [mkCall (dynamic ext) ctx event err]) (logs env)).

(** [logger.Error(err, msg)]. *)
Definition logger_Error (l : Logger) (err : option errors.error)
    (msg : string) (env : Env) : Env :=
  mkEnv (world env) (calls env) (logs env ++ [mkLogEntry l err msg]).

End Plugins.

Arguments mkPlugin {World} _ _.
Arguments TypedName {World} _.
Arguments notification_method {World} _.
Arguments mkNotificationExtractor {World} _ _.
Arguments dynamic {World} _.
Arguments ExtractNotification {World} _ _ _ _.
Arguments assertNotificationExtractor {World} _.
Arguments implementsNotificationExtractor {World} _.
Arguments mkCall {World} _ _ _ _.
Arguments callee {World} _.
Arguments call_ctx {World} _.
Arguments call_event {World} _.
Arguments call_result {World} _.
Arguments mkEnv {World} _ _ _.
Arguments world {World} _.
Arguments calls {World} _.
Arguments logs {World} _.
Arguments invoke {World} _ _ _ _.
Arguments logger_Error {World} _ _ _ _.

End fwkdl.

(** ** [sync.Map] with string keys *)

Module sync.

Section Map.
Context {V : Type}.

(** [m.LoadOrStore(key, value)]: the existing value if there is one
    ([loaded = true], map untouched), else stores and returns [value]. *)
Definition LoadOrStore (m : gmap string V) (key : string) (value : V)
  : V * bool * gmap string V :=
  match m !! key with
  | Some actual => (actual, true, m)
  | None => (value, false, <[key := value]> m)
  end.

(** An enumeration [Range] may walk: the content of the map in some order. *)
Definition enumerates (order : list (string * V)) (m : gmap string V) : Prop :=
  order ≡ₚ map_to_list m.

(** [m.Range(f)] along an enumeration: [f] is called on the entries in turn
    and updates the state [St] its closure captured; iteration stops as soon
    as [f] returns [false]. *)
Fixpoint Range {St : Type} (order : list (string * V))
    (f : string -> V -> St -> St * bool) (st : St) : St :=
  match order with
  | [] => st
  | (key, value) :: rest =>
      let '(st', continue) := f key value st in
      if continue then Range rest f st' else st'
  end.

End Map.

End sync.

(** ** Package [notification]: [K8sNotificationSource] *)

Module notification.

Section Source.
Variable World : Type.

Record K8sNotificationSource : Type :=
  mkSource { typedName : fwkplugin.TypedName;
             gvk : schema.GroupVersionKind;
             (* key: name (string), value: fwkdl.NotificationExtractor,
                stored as [any] *)
             extractors : gmap string (fwkdl.Plugin World) }.

Definition NewK8sNotificationSource (pluginType pluginName : string)
    (gvk : schema.GroupVersionKind) : K8sNotificationSource :=
  mkSource (fwkplugin.mkTypedName pluginType pluginName) gvk ∅.

Definition TypedName (s : K8sNotificationSource) : fwkplugin.TypedName :=
  typedName s.

Definition GVK (s : K8sNotificationSource) : schema.GroupVersionKind := gvk s.

(** [Extractors]: names of registered extractors, along the enumeration
    [order] of the map. *)
Definition Extractors (order : list (string * fwkdl.Plugin World))
    (s : K8sNotificationSource) : list string :=
  sync.Range order
    (fun _ val (names : list string) =>
       match fwkdl.assertNotificationExtractor val with
       | Some ext =>
           (names ++ [fwkplugin.String_ (fwkdl.TypedName (fwkdl.dynamic ext))], true)
       | None => (names, true)
       end)
    [].

(** [AddExtractor]: [ext] is [None] for a nil interface value. *)
Definition AddExtractor (s : K8sNotificationSource)
    (ext : option (fwkdl.Plugin World))
  : K8sNotificationSource * option errors.error :=
  match ext with
  | None => (s, Some (errors.New "cannot add nil extractor"))
  | Some ext =>
      match fwkdl.assertNotificationExtractor ext with
      | None =>
          (s, Some (errors.errorString
                      ("extractor " +:+ fwkplugin.String_ (fwkdl.TypedName ext)
                       +:+ " does not implement NotificationExtractor")))
      | Some nExt =>
          let '(_, loaded, m) :=
            sync.LoadOrStore (extractors s)
              (fwkplugin.Name (fwkdl.TypedName (fwkdl.dynamic nExt)))
              (fwkdl.dynamic nExt) in
          let s' := mkSource (typedName s) (gvk s) m in
          if loaded then
            (s', Some (errors.errorString
                         ("duplicate extractor "
                          +:+ fwkplugin.String_ (fwkdl.TypedName (fwkdl.dynamic nExt))
                          +:+ " on notification source "
                          +:+ fwkplugin.String_ (TypedName s))))
          else (s', None)
      end
  end.

(** [Collect] is a no-op. *)
Definition Collect {Endpoint : Type} (s : K8sNotificationSource)
    (_ : fwkdl.Context) (_ : Endpoint)
  : K8sNotificationSource * option errors.error :=
  (s, None).

(** The body of the closure [Notify] hands to [Range]; its captured state is
    the slice [errs] and the surroundings. *)
Definition notifyOne (ctx : fwkdl.Context) (event : fwkdl.NotificationEvent)
    (_ : string) (val : fwkdl.Plugin World)
    (st : list errors.error * fwkdl.Env World)
  : list errors.error * fwkdl.Env World * bool :=
  let '(errs, env) := st in
  match fwkdl.assertNotificationExtractor val with
  | None => ((errs, env), true)
  | Some ext =>
      let '(err, env') := fwkdl.invoke ext ctx event env in
      match err with
      | Some err =>
          ((errs ++ [errors.wrapError
                       ("extractor "
                        +:+ fwkplugin.String_ (fwkdl.TypedName (fwkdl.dynamic ext))
                        +:+ ": " +:+ errors.Error err)
                       err],
            env'), true)
      | None => ((errs, env'), true)
      end
  end.

Definition failure_message : string :=
  "extractor(s) failed processing notification".

(** [Notify]: dispatches [event] to all registered extractors along the
    enumeration [order]; it has no result. *)
Definition Notify (order : list (string * fwkdl.Plugin World))
    (s : K8sNotificationSource) (ctx : fwkdl.Context)
    (event : fwkdl.NotificationEvent) (env : fwkdl.Env World)
  : unit * fwkdl.Env World :=
  let logger :=
    fwkdl.WithValues (fwkdl.FromContext ctx)
      [("gvk", fwkdl.LogGVK (gvk s));
       ("eventType", fwkdl.LogEventType (fwkdl.Type_ event))] in
  let '(errs, env') := sync.Range order (notifyOne ctx event) ([], env) in
  if (0 <? length errs)%nat then
    (tt, fwkdl.logger_Error logger (errors.Join (Some <$> errs))
           failure_message env')
  else (tt, env').

End Source.

Arguments mkSource {World} _ _ _.
Arguments typedName {World} _.
Arguments gvk {World} _.
Arguments extractors {World} _.
Arguments NewK8sNotificationSource {World} _ _ _.
Arguments TypedName {World} _.
Arguments GVK {World} _.
Arguments Extractors {World} _ _.
Arguments AddExtractor {World} _ _.
Arguments Collect {World Endpoint} _ _ _.
Arguments notifyOne {World} _ _ _ _ _.
Arguments Notify {World} _ _ _ _ _.

End notification.

(** ** Histories of a source *)

Import notification.

Section Histories.
Context {World Endpoint : Type}.

(** The sources a program can hold: the fields are unexported, so a source
    is built by the constructor and changed only by [AddExtractor]. *)
Inductive reachable : K8sNotificationSource World -> Prop :=
| reachable_New pluginType pluginName gvk :
    reachable (NewK8sNotificationSource pluginType pluginName gvk)
| reachable_AddExtractor s ext :
    reachable s -> reachable (fst (AddExtractor s ext)).

(** The operations of the [NotificationSource] interface that act on a
    source, as a caller issues them. *)
Inductive Op : Type :=
| OpAddExtractor (ext : option (fwkdl.Plugin World))
| OpNotify (order : list (string * fwkdl.Plugin World))
    (ctx : fwkdl.Context) (event : fwkdl.NotificationEvent)
| OpCollect (ctx : fwkdl.Context) (target : Endpoint).

Definition step (st : K8sNotificationSource World * fwkdl.Env World) (op : Op)
  : K8sNotificationSource World * fwkdl.Env World :=
  let '(s, env) := st in
  match op with
  | OpAddExtractor ext => (fst (AddExtractor s ext), env)
  | OpNotify order ctx event => (s, snd (Notify order s ctx event env))
  | OpCollect ctx target => (fst (Collect s ctx target), env)
  end.

Definition run (ops : list Op)
    (st : K8sNotificationSource World * fwkdl.Env World)
  : K8sNotificationSource World * fwkdl.Env World :=
  fold_left step ops st.

(** Successive [AddExtractor] calls, with the error each one returned. *)
Fixpoint AddExtractors (s : K8sNotificationSource World)
    (exts : list (option (fwkdl.Plugin World)))
  : K8sNotificationSource World * list (option errors.error) :=
  match exts with
  | [] => (s, [])
  | ext :: rest =>
      let '(s', err) := AddExtractor s ext in
      let '(s'', errs) := AddExtractors s' rest in
      (s'', err :: errs)
  end.

(** One [Notify] call of the framework core: the event, its context, and the
    enumeration [Range] happens to follow during that call. *)
Record Delivery : Type :=
  mkDelivery { delivery_order : list (string * fwkdl.Plugin World);
               delivery_ctx : fwkdl.Context;
               delivery_event : fwkdl.NotificationEvent }.

(** Successive [Notify] calls on one source. *)
Fixpoint NotifyAll (s : K8sNotificationSource World) (ds : list Delivery)
    (env : fwkdl.Env World) : fwkdl.Env World :=
  match ds with
  | [] => env
  | d :: rest =>
      NotifyAll s rest
        (snd (Notify (delivery_order d) s (delivery_ctx d) (delivery_event d) env))
  end.

(** The registration key of a plugin: the [Name] part of its [TypedName]. *)
Definition name_of (val : fwkdl.Plugin World) : string :=
  fwkplugin.Name (fwkdl.TypedName val).

(** What [Extractors] reports for a plugin. *)
Definition rendered (val : fwkdl.Plugin World) : string :=
  fwkplugin.String_ (fwkdl.TypedName val).

(** The plugins whose registration went through: [errs] holds the error each
    call of [exts] returned. *)
Fixpoint accepted (exts : list (option (fwkdl.Plugin World)))
    (errs : list (option errors.error)) : list (fwkdl.Plugin World) :=
  match exts, errs with
  | Some p :: exts', None :: errs' => p :: accepted exts' errs'
  | _ :: exts', _ :: errs' => accepted exts' errs'
  | _, _ => []
  end.

(** How many calls returned no error. *)
Definition successes (errs : list (option errors.error)) : nat :=
  length (filter (fun e => e = None) errs).

(** The calls of a trace that went to the extractor registered as [name]. *)
Definition calls_to (name : string) (trace : list (fwkdl.Call World))
  : list (fwkdl.Call World) :=
  filter (fun c => name_of (fwkdl.callee c) = name) trace.

(** The logger [Notify] derives from its context. *)
Definition notify_logger (s : K8sNotificationSource World)
    (ctx : fwkdl.Context) (event : fwkdl.NotificationEvent) : fwkdl.Logger :=
  fwkdl.WithValues (fwkdl.FromContext ctx)
    [("gvk", fwkdl.LogGVK (gvk s));
     ("eventType", fwkdl.LogEventType (fwkdl.Type_ event))].

(** The error [Notify] adds to its aggregate for a call that failed. *)
Definition wrapped (c : fwkdl.Call World) : option errors.error :=
  match fwkdl.call_result c with
  | Some err =>
      Some (errors.wrapError
              ("extractor " +:+ fwkplugin.String_ (fwkdl.TypedName (fwkdl.callee c))
               +:+ ": " +:+ errors.Error err) err)
  | None => None
  end.

(** A trace that was really executed from the world [w] to the world [w']:
    every call applied the [ExtractNotification] method of its callee to the
    recorded context and event, on the world the calls before it had left,
    and recorded what the method returned. *)
Fixpoint performed (w : World) (trace : list (fwkdl.Call World)) (w' : World)
  : Prop :=
  match trace with
  | [] => w' = w
  | c :: rest =>
      exists f,
        fwkdl.notification_method (fwkdl.callee c) = Some f /\
        fwkdl.call_result c = snd (f (fwkdl.call_ctx c) (fwkdl.call_event c) w) /\
        performed (fst (f (fwkdl.call_ctx c) (fwkdl.call_event c) w)) rest w'
  end.

(** The invariant of the extractor map: every stored value implements
    [NotificationExtractor] and sits under its own name. *)
Definition well_formed (s : K8sNotificationSource World) : Prop :=
  forall key val,
    extractors s !! key = Some val ->
    fwkdl.implementsNotificationExtractor val = true /\ name_of val = key.

End Histories.

Arguments Op : clear implicits.

(** ** Sample plugins, over a world that is a journal of what ran *)

Module samples.

Definition Journal : Type := list (string * fwkdl.NotificationEvent).

(** An extractor that records the event under its label and succeeds. *)
Definition recording (label : string) : fwkdl.ExtractNotificationFn Journal :=
  fun _ event w => (w ++ [(label, event)], None).

(** An extractor that records the event and then fails. *)
Definition failing (label : string) : fwkdl.ExtractNotificationFn Journal :=
  fun _ event w => (w ++ [(label, event)], Some (errors.New (label +:+ " failed"))).

Definition tracker : fwkdl.Plugin Journal :=
  fwkdl.mkPlugin (fwkplugin.mkTypedName "lora" "lora-tracker")
    (Some (recording "lora-tracker")).

Definition broken : fwkdl.Plugin Journal :=
  fwkdl.mkPlugin (fwkplugin.mkTypedName "lora" "broken") (Some (failing "broken")).

(** Same name as [tracker], another type. *)
Definition tracker_other_type : fwkdl.Plugin Journal :=
  fwkdl.mkPlugin (fwkplugin.mkTypedName "model" "lora-tracker")
    (Some (recording "model/lora-tracker")).

(** A plugin with the base [Extractor] capability only. *)
Definition poller : fwkdl.Plugin Journal :=
  fwkdl.mkPlugin (fwkplugin.mkTypedName "metrics" "poller") None.

Definition podGVK : schema.GroupVersionKind := schema.mkGVK "" "v1" "Pod".

Definition fresh : K8sNotificationSource Journal :=
  NewK8sNotificationSource "k8s-notification-source" "pods" podGVK.

Definition one : K8sNotificationSource Journal :=
  fst (AddExtractor fresh (Some tracker)).

Definition two : K8sNotificationSource Journal :=
  fst (AddExtractor one (Some broken)).

(** A source whose two extractors both fail. *)
Definition broken2 : fwkdl.Plugin Journal :=
  fwkdl.mkPlugin (fwkplugin.mkTypedName "lora" "broken2") (Some (failing "broken2")).

Definition allBroken : K8sNotificationSource Journal :=
  fst (AddExtractor (fst (AddExtractor fresh (Some broken))) (Some broken2)).

Definition live : fwkdl.Context := fwkdl.mkContext false [].
Definition done_ctx : fwkdl.Context := fwkdl.mkContext true [].

Definition added : fwkdl.NotificationEvent :=
  fwkdl.mkEvent fwkdl.EventAddOrUpdate (Some 1%nat).
Definition deleted : fwkdl.NotificationEvent :=
  fwkdl.mkEvent fwkdl.EventDelete (Some 1%nat).

Definition env0 : fwkdl.Env Journal := fwkdl.mkEnv [] [] [].

End samples.

(** ** Go values, variables and package [flag], as package [options] uses them *)

Module goflag.

(** The types [AddFlags] tells apart, and any other named type. *)
Inductive GoType : Type :=
| TString | TInt | TBool | TDuration
| TNamed (name : string).

#[global] Instance GoType_eq_dec : EqDecision GoType.
Proof. solve_decision. Defined.

Definition GoType_name (t : GoType) : string :=
  match t with
  | TString => "string"
  | TInt => "int"
  | TBool => "bool"
  | TDuration => "time.Duration"
  | TNamed name => name
  end.

(** A value of one of the four flag types. *)
Inductive Val : Type :=
| VString (s : string)
| VInt (n : Z)
| VBool (b : bool)
| VDuration (d : Z).

Definition Val_type (v : Val) : GoType :=
  match v with
  | VString _ => TString
  | VInt _ => TInt
  | VBool _ => TBool
  | VDuration _ => TDuration
  end.

(** A value of interface type [any]: nil, one of the four kinds of value, a
    pointer (nil when [p] is [None]) to a variable of some type, or a value
    of another type, of which only the type name matters here. *)
Inductive Any : Type :=
| ANil
| AVal (v : Val)
| APtr (ty : GoType) (p : option nat)
| AOther (typeName : string).

(** What the verb [%T] prints. *)
Definition verb_T (a : Any) : string :=
  match a with
  | ANil => "<nil>"
  | AVal v => GoType_name (Val_type v)
  | APtr ty _ => "*" +:+ GoType_name ty
  | AOther typeName => typeName
  end.

(** What the verb [%d] prints for a length. *)
Definition verb_d (n : nat) : string :=
  DecimalString.NilZero.string_of_uint (Nat.to_uint n).

(** The parts of [strconv], [time] and [fmt] whose results are taken as
    given: the quoting of [%q], and the parsers behind [intValue.Set] and
    [durationValue.Set], each with the value it yields and the error [flag]
    reports. *)
Class Strconv : Type :=
  { Quote : string -> string;
    ParseInt : string -> Z * option errors.error;
    ParseDuration : string -> Z * option errors.error }.

Definition errParse : errors.error := errors.New "parse error".

(** [strconv.ParseBool], with the error [boolValue.Set] turns it into. *)
Definition ParseBool (str : string) : bool * option errors.error :=
  if bool_decide (str ∈ ["1"; "t"; "T"; "true"; "TRUE"; "True"]) then (true, None)
  else if bool_decide (str ∈ ["0"; "f"; "F"; "false"; "FALSE"; "False"]) then (false, None)
  else (false, Some errParse).

Inductive Writer : Type :=
| Stderr
| OtherWriter (id : nat).

(** The variables of the program and what has been written to its writers. *)
Record Mem : Type :=
  mkMem { heap : gmap nat Val; written : list (Writer * string) }.

Definition store (p : nat) (v : Val) (m : Mem) : Mem :=
  mkMem (<[p := v]> (heap m)) (written m).

Definition Fprintf (w : Writer) (text : string) (m : Mem) : Mem :=
  mkMem (heap m) (written m ++ [(w, text)]).

(** The dynamic values behind [flag.Value]: the four standard ones, each
    sharing the variable [p] it was made for; a value of the user's own, with
    its [Set] and, if it is a [flag.Getter], its [Get]; and the wrapper
    [deprecatedValue] of package [options], with its fields. *)
Inductive Value : Type :=
| stringValue (p : nat)
| intValue (p : nat)
| boolValue (p : nat)
| durationValue (p : nat)
| userValue (set : string -> gmap nat Val -> gmap nat Val * option errors.error)
    (get : option (gmap nat Val -> Any))
| deprecatedValue (inner : Value) (warned : bool) (name replacedBy : string)
    (writer : Writer).

(** [flag.Flag], without the [DefValue] text that nothing here reads. *)
Record Flag : Type :=
  mkFlag { Name : string; Usage : string; Value_ : Value }.

(** [flag.FlagSet]: the defined flags, the names that were set before being
    defined, and the output writer (nil when [None]). *)
Record FlagSet : Type :=
  mkFlagSet { formal : gmap string Flag;
              undef : gset string;
              output : option Writer }.

Definition Lookup (fs : FlagSet) (name : string) : option Flag := formal fs !! name.

Definition Output (fs : FlagSet) : Writer :=
  match output fs with
  | None => Stderr
  | Some w => w
  end.

(** [fs.Var(value, name, usage)]; [None] when it panics: a name that begins
    with a dash or holds an equals sign, a flag defined twice, a flag that
    was set before being defined. *)
Definition Var (fs : FlagSet) (value : Value) (name usage : string)
  : option FlagSet :=
  if String.prefix "-" name then None
  else if contains "=" name then None
  else if bool_decide (is_Some (formal fs !! name)) then None
  else if bool_decide (name ∈ undef fs) then None
  else Some (mkFlagSet (<[name := mkFlag name usage value]> (formal fs))
               (undef fs) (output fs)).

(** [fs.StringVar(p, name, value, usage)] and its siblings: the variable
    receives the default, and a value sharing the variable is defined. *)
Definition TypeVar (mk : nat -> Value) (fs : FlagSet) (p : nat) (name : string)
    (value : Val) (usage : string) (m : Mem) : option (FlagSet * Mem) :=
  let m' := store p value m in
  match Var fs (mk p) name usage with
  | Some fs' => Some (fs', m')
  | None => None
  end.

Section Values.
Context `{Strconv}.

(** The [Set] method.  The standard values store what the parser yields even
    when it reports an error.  The wrapper's method is the one of package
    [options]: it delegates, and warns once after the first [Set] that
    succeeded. *)
Fixpoint Set_ (v : Value) (s : string) (m : Mem)
  : Value * option errors.error * Mem :=
  match v with
  | stringValue p => (v, None, store p (VString s) m)
  | intValue p =>
      let '(n, err) := ParseInt s in (v, err, store p (VInt n) m)
  | boolValue p =>
      let '(b, err) := ParseBool s in (v, err, store p (VBool b) m)
  | durationValue p =>
      let '(d, err) := ParseDuration s in (v, err, store p (VDuration d) m)
  | userValue set _ =>
      let '(h, err) := set s (heap m) in (v, err, mkMem h (written m))
  | deprecatedValue inner warned name replacedBy writer =>
      (* err := d.Value.Set(s) *)
      let '(inner', err, m1) := Set_ inner s m in
      match err with
      | None =>
          if negb warned then
            (* d.warned = true *)
            let d' := deprecatedValue inner' true name replacedBy writer in
            if negb (String.eqb replacedBy "") then
              (d', err,
               Fprintf writer
                 ("Warning: --" +:+ name +:+ " is deprecated; use " +:+ replacedBy
                  +:+ " instead." +:+ errors.newline) m1)
            else
              (d', err,
               Fprintf writer
                 ("Warning: --" +:+ name
                  +:+ " is deprecated and will be removed in an upcoming release."
                  +:+ errors.newline) m1)
          else (deprecatedValue inner' warned name replacedBy writer, err, m1)
      | Some _ => (deprecatedValue inner' warned name replacedBy writer, err, m1)
      end
  end.

(** The [Get] method of a [flag.Getter], where the value has one: the
    standard values hand out the content of their variable, not a pointer. *)
Definition Get (v : Value) (h : gmap nat Val) : option Any :=
  match v with
  | stringValue p =>
      Some (AVal (VString (match h !! p with Some (VString s) => s | _ => "" end)))
  | intValue p =>
      Some (AVal (VInt (match h !! p with Some (VInt n) => n | _ => 0%Z end)))
  | boolValue p =>
      Some (AVal (VBool (match h !! p with Some (VBool b) => b | _ => false end)))
  | durationValue p =>
      Some (AVal (VDuration (match h !! p with Some (VDuration d) => d | _ => 0%Z end)))
  | userValue _ (Some get) => Some (get h)
  | userValue _ None => None
  | deprecatedValue _ _ _ _ _ => None
  end.

End Values.

End goflag.

(** ** Package [options] *)

Module options.

Import goflag.

(** [Flag]: the definition of one command line flag. *)
Record Flag : Type :=
  mkFlag { Name : string;
           DefValue : Any;
           Usage : string;
           Deprecated : bool;
           ReplacedBy : string }.

(** The process state the package works on: the global [flag.CommandLine]
    and the memory. *)
Record Process : Type :=
  mkProcess { CommandLine : FlagSet; mem : Mem }.

(** An argument of type [*flag.FlagSet]: nil, the pointer [flag.CommandLine]
    itself, or a pointer to another flag set, given by the content of that
    set.  A call on the first two works on the global set. *)
Inductive FlagSetRef : Type :=
| nilSet
| globalSet
| otherSet (fs : FlagSet).

(** How one pass of the loop of [AddFlags] ends. *)
Inductive Step : Type :=
| Next (fs : FlagSet) (m : Mem)
| Exit (err : errors.error) (fs : FlagSet) (m : Mem)
| Panic.

(** How a call ends: it returns, with the reference it was given (for
    another flag set, with the content the call left) and the process state,
    or it panics. *)
Inductive Result (A : Type) : Type :=
| Done (a : A) (fs : FlagSetRef) (ps : Process)
| Panicked.
Arguments Done {A} _ _ _.
Arguments Panicked {A}.

Section WithStrconv.
Context `{Strconv}.

Definition typeError (name : string) (got : Any) (expected : string) : errors.error :=
  errors.errorString
    ("flag " +:+ Quote name +:+ ": variable must be *" +:+ expected
     +:+ ", got " +:+ verb_T got).

(** One case of the type switch: the assertion [ptr.( *T )], the assignment
    [*p = def], and the call of [fs.TVar]. *)
Definition bind (ty : GoType) (mk : nat -> Value) (f : Flag) (def : Val)
    (ptr : Any) (fs : FlagSet) (m : Mem) : Step :=
  match ptr with
  | APtr ty' p =>
      if bool_decide (ty' = ty) then
        match p with
        | None => Panic        (* assignment through a nil pointer *)
        | Some a =>
            match TypeVar mk fs a (Name f) def (Usage f) (store a def m) with
            | Some (fs', m') => Next fs' m'
            | None => Panic
            end
        end
      else Exit (typeError (Name f) ptr (GoType_name ty)) fs m
  | _ => Exit (typeError (Name f) ptr (GoType_name ty)) fs m
  end.

(** The body of the loop of [AddFlags] for the flag [f]. *)
Definition addFlag (f : Flag) (vars : gmap string Any) (fs : FlagSet) (m : Mem)
  : Step :=
  match DefValue f with
  | ANil =>
      Exit (errors.errorString
              ("flag " +:+ Quote (Name f) +:+ " must have a non-nil default value"))
        fs m
  | _ =>
      match vars !! Name f with
      | None =>
          Exit (errors.errorString
                  ("variable pointer for flag " +:+ Quote (Name f) +:+ " not provided"))
            fs m
      | Some ptr =>
          let registered :=
            match DefValue f with
            | AVal (VString def) => bind TString stringValue f (VString def) ptr fs m
            | AVal (VInt def) => bind TInt intValue f (VInt def) ptr fs m
            | AVal (VBool def) => bind TBool boolValue f (VBool def) ptr fs m
            | AVal (VDuration def) => bind TDuration durationValue f (VDuration def) ptr fs m
            | def =>
                Exit (errors.errorString
                        ("unsupported flag type for " +:+ Quote (Name f) +:+ ": "
                         +:+ verb_T def))
                  fs m
            end in
          match registered with
          | Next fs' m' =>
              if Deprecated f then
                match Lookup fs' (Name f) with
                | None =>
                    Exit (errors.errorString
                            ("failed to lookup deprecated flag " +:+ Quote (Name f)
                             +:+ " in set"))
                      fs' m'
                | Some fl =>
                    Next (mkFlagSet
                            (<[Name f :=
                                 goflag.mkFlag (goflag.Name fl) (goflag.Usage fl)
                                   (deprecatedValue (Value_ fl) false (Name f)
                                      (ReplacedBy f) (Output fs'))]> (formal fs'))
                            (undef fs') (output fs'))
                      m'
                end
              else Next fs' m'
          | other => other
          end
      end
  end.

(** The loop of [AddFlags]. *)
Fixpoint addFlags (flags : list Flag) (vars : gmap string Any) (fs : FlagSet)
    (m : Mem) : Step :=
  match flags with
  | [] => Next fs m
  | f :: rest =>
      match addFlag f vars fs m with
      | Next fs' m' => addFlags rest vars fs' m'
      | other => other
      end
  end.

(** The flag set a call works on: the one given, which may be the global
    one, or [flag.CommandLine] for nil. *)
Definition target (fs : FlagSetRef) (ps : Process) : FlagSet :=
  match fs with
  | nilSet => CommandLine ps
  | globalSet => CommandLine ps
  | otherSet fs => fs
  end.

(** The caller's view after the call worked on [fs'] and left memory [m]. *)
Definition finish {A} (a : A) (fs : FlagSetRef) (ps : Process)
    (fs' : FlagSet) (m : Mem) : Result A :=
  match fs with
  | nilSet => Done a nilSet (mkProcess fs' m)
  | globalSet => Done a globalSet (mkProcess fs' m)
  | otherSet _ => Done a (otherSet fs') (mkProcess (CommandLine ps) m)
  end.

(** [AddFlags]. *)
Definition AddFlags (fs : FlagSetRef) (flags : list Flag)
    (vars : gmap string Any) (ps : Process) : Result (option errors.error) :=
  if negb (length flags =? size vars)%nat then
    Done (Some (errors.errorString
                  ("mismatch flags (" +:+ verb_d (length flags) +:+ ") and vars ("
                   +:+ verb_d (size vars) +:+ ") count")))
      fs ps
  else
    match addFlags flags vars (target fs ps) (mem ps) with
    | Next fs' m => finish None fs ps fs' m
    | Exit err fs' m => finish (Some err) fs ps fs' m
    | Panic => Panicked
    end.

(** [GetStringFlagValue]. *)
Definition GetStringFlagValue (fs : FlagSetRef) (name : string) (ps : Process)
  : Result (string * option errors.error) :=
  let fs0 := target fs ps in
  match Lookup fs0 name with
  | None =>
      Done ("", Some (errors.errorString ("flag not found: " +:+ name))) fs ps
  | Some f =>
      match Get (Value_ f) (heap (mem ps)) with
      | None =>
          Done ("", Some (errors.errorString
                            ("flag " +:+ name
                             +:+ " value does not support flag.Getter interface")))
            fs ps
      | Some underlying =>
          match underlying with
          | APtr TString strptr =>
              match strptr with
              | Some a =>
                  Done (match heap (mem ps) !! a with
                        | Some (VString s) => s
                        | _ => ""
                        end, None) fs ps
              | None => Panicked   (* *strptr on a nil pointer *)
              end
          | _ =>
              Done ("", Some (errors.errorString
                                ("flag " +:+ name +:+ " is not a string type, got "
                                 +:+ verb_T underlying)))
                fs ps
          end
      end
  end.

(** [GetBoolFlagValue]. *)
Definition GetBoolFlagValue (fs : FlagSetRef) (name : string) (ps : Process)
  : Result (bool * option errors.error) :=
  let fs0 := target fs ps in
  match Lookup fs0 name with
  | None =>
      Done (false, Some (errors.errorString ("flag not found: " +:+ name))) fs ps
  | Some f =>
      match Get (Value_ f) (heap (mem ps)) with
      | None =>
          Done (false, Some (errors.errorString
                               ("flag " +:+ name
                                +:+ " value does not support flag.Getter interface")))
            fs ps
      | Some underlying =>
          match underlying with
          | APtr TBool boolptr =>
              match boolptr with
              | Some a =>
                  Done (match heap (mem ps) !! a with
                        | Some (VBool b) => b
                        | _ => false
                        end, None) fs ps
              | None => Panicked   (* *boolptr on a nil pointer *)
              end
          | _ =>
              Done (false, Some (errors.errorString
                                   ("flag " +:+ name +:+ " is not a bool type, got "
                                    +:+ verb_T underlying)))
                fs ps
          end
      end
  end.


(** The value [AddFlags] defines for the flag [f] with default [def], bound
    to the variable [a], on a flag set whose output is [w]. *)
Definition standardValue (def : Val) (a : nat) : Value :=
  match def with
  | VString _ => stringValue a
  | VInt _ => intValue a
  | VBool _ => boolValue a
  | VDuration _ => durationValue a
  end.

Definition definedValue (f : Flag) (def : Val) (a : nat) (w : Writer) : Value :=
  if Deprecated f then
    deprecatedValue (standardValue def a) false (Name f) (ReplacedBy f) w
  else standardValue def a.

(** The values that are neither of the user's own nor wrapped twice. *)
Definition standard (v : Value) : bool :=
  match v with
  | stringValue _ | intValue _ | boolValue _ | durationValue _ => true
  | _ => false
  end.

Definition standard_or_deprecated (v : Value) : bool :=
  match v with
  | deprecatedValue inner _ _ _ _ => standard inner
  | v => standard v
  end.

(** Why the loop of [AddFlags] rejects the flag [f], and with which error. *)
Inductive rejected (vars : gmap string Any) (f : Flag) : errors.error -> Prop :=
| rejected_nil_default :
    DefValue f = ANil ->
    rejected vars f
      (errors.errorString
         ("flag " +:+ Quote (Name f) +:+ " must have a non-nil default value"))
| rejected_no_variable :
    DefValue f <> ANil -> vars !! Name f = None ->
    rejected vars f
      (errors.errorString
         ("variable pointer for flag " +:+ Quote (Name f) +:+ " not provided"))
| rejected_wrong_pointer def ptr :
    DefValue f = AVal def -> vars !! Name f = Some ptr ->
    (forall p, ptr <> APtr (Val_type def) p) ->
    rejected vars f (typeError (Name f) ptr (GoType_name (Val_type def)))
| rejected_unsupported ptr :
    DefValue f <> ANil -> (forall def, DefValue f <> AVal def) ->
    vars !! Name f = Some ptr ->
    rejected vars f
      (errors.errorString
         ("unsupported flag type for " +:+ Quote (Name f) +:+ ": "
          +:+ verb_T (DefValue f))).

(** The values that are not a deprecation wrapper. *)
Definition plain (v : Value) : bool :=
  match v with
  | deprecatedValue _ _ _ _ _ => false
  | _ => true
  end.

(** Whether a call returned a nil error. *)
Definition succeeded (err : option errors.error) : bool :=
  match err with
  | None => true
  | Some _ => false
  end.

(** The text of the deprecation warning. *)
Definition warning (name replacedBy : string) : string :=
  if String.eqb replacedBy "" then
    "Warning: --" +:+ name
    +:+ " is deprecated and will be removed in an upcoming release."
    +:+ errors.newline
  else
    "Warning: --" +:+ name +:+ " is deprecated; use " +:+ replacedBy
    +:+ " instead." +:+ errors.newline.

(** Successive [Set] calls on one flag value, with the error of each. *)
Fixpoint SetAll (v : Value) (args : list string) (m : Mem)
  : Value * list (option errors.error) * Mem :=
  match args with
  | [] => (v, [], m)
  | s :: rest =>
      let '(v1, err, m1) := Set_ v s m in
      let '(v2, errs, m2) := SetAll v1 rest m1 in
      (v2, err :: errs, m2)
  end.

End WithStrconv.

End options.

(** ** Sample flags *)

Module flag_samples.

Import goflag options.

Definition dquote : string := String (ascii_of_nat 34) EmptyString.

(** A stand-in for the library parsers: quoting of plain names, a parser that
    knows one number, and one that knows no duration. *)
#[global] Instance sampleStrconv : Strconv :=
  {| Quote := fun s => dquote +:+ s +:+ dquote;
     ParseInt := fun s =>
       if String.eqb s "9090" then (9090%Z, None) else (0%Z, Some errParse);
     ParseDuration := fun _ => (0%Z, Some errParse) |}.

Definition portFlag : Flag := mkFlag "port" (AVal (VInt 8080)) "port to listen on" false "".
Definition poolFlag : Flag :=
  mkFlag "pool-name" (AVal (VString "default")) "name of the pool" true "--pool".
Definition verboseFlag : Flag := mkFlag "verbose" (AVal (VBool false)) "log more" false "".
Definition oldPortFlag : Flag :=
  mkFlag "grpc-port" (AVal (VInt 9002)) "old port" true "".

Definition sampleFlags : list Flag := [portFlag; poolFlag; verboseFlag].

(** [port] lives at address 1, [pool-name] at 2, [verbose] at 3. *)
Definition sampleVars : gmap string Any :=
  {[ "port" := APtr TInt (Some 1%nat);
     "pool-name" := APtr TString (Some 2%nat);
     "verbose" := APtr TBool (Some 3%nat) ]}.

(** The same, with [verbose] bound to a string variable. *)
Definition wrongVars : gmap string Any :=
  {[ "port" := APtr TInt (Some 1%nat);
     "pool-name" := APtr TString (Some 2%nat);
     "verbose" := APtr TString (Some 3%nat) ]}.

Definition emptySet : FlagSet := mkFlagSet ∅ ∅ None.

Definition process0 : Process := mkProcess emptySet (mkMem ∅ []).

(** The flag set and the process after [AddFlags] on the sample flags. *)
Definition definedSet : FlagSet :=
  match AddFlags (otherSet emptySet) sampleFlags sampleVars process0 with
  | Done _ (otherSet fs) _ => fs
  | _ => emptySet
  end.

Definition afterwards : Process :=
  match AddFlags (otherSet emptySet) sampleFlags sampleVars process0 with
  | Done _ _ ps => ps
  | Panicked => process0
  end.

(** After the failed call with [wrongVars]. *)
Definition partlySet : FlagSet :=
  match AddFlags (otherSet emptySet) sampleFlags wrongVars process0 with
  | Done _ (otherSet fs) _ => fs
  | _ => emptySet
  end.

Definition partly : Process :=
  match AddFlags (otherSet emptySet) sampleFlags wrongVars process0 with
  | Done _ _ ps => ps
  | Panicked => process0
  end.

(** A flag value of the user's own whose [Get] hands out a pointer to the
    variable at [a]. *)
Definition pointerValue (ty : GoType) (a : nat) : Value :=
  userValue (fun s h => (<[a := VString s]> h, None)) (Some (fun _ => APtr ty (Some a))).

Definition customSet : FlagSet :=
  mkFlagSet {[ "region" := goflag.mkFlag "region" "where to run" (pointerValue TString 7);
               "dry-run" := goflag.mkFlag "dry-run" "change nothing" (pointerValue TBool 8) ]}
    ∅ None.

Definition customProcess : Process :=
  mkProcess emptySet (mkMem {[ 7%nat := VString "eu-west"; 8%nat := VBool true ]} []).

End flag_samples.

(** ** Auxiliary facts *)

(** Shows that a source written as a chain of [AddExtractor] calls on a
    fresh source is [reachable]. *)
Ltac built := repeat first [ apply reachable_AddExtractor | apply reachable_New ].

Section Lemmas.
Context {World : Type}.
Implicit Types (s : K8sNotificationSource World) (val p : fwkdl.Plugin World)
  (env : fwkdl.Env World) (order : list (string * fwkdl.Plugin World)).

Lemma omap_id_Some {A} (l : list A) : omap id (Some <$> l) = l.
Proof. induction l as [|a l IH]; [done|]. cbn. f_equal. exact IH. Qed.

Lemma Join_all_non_nil (errs : list errors.error) :
  errors.Join (Some <$> errs) =
  match errs with [] => None | _ :: _ => Some (errors.joinError errs) end.
Proof. unfold errors.Join. rewrite omap_id_Some. by destruct errs. Qed.

Lemma assert_implements val :
  fwkdl.implementsNotificationExtractor val = true ->
  exists f, fwkdl.notification_method val = Some f /\
            fwkdl.assertNotificationExtractor val
            = Some (fwkdl.mkNotificationExtractor val f).
Proof.
  unfold fwkdl.implementsNotificationExtractor, fwkdl.assertNotificationExtractor.
  destruct (fwkdl.notification_method val) as [f|]; [eauto | discriminate].
Qed.

Lemma assert_not_implements val :
  fwkdl.implementsNotificationExtractor val = false ->
  fwkdl.assertNotificationExtractor val = None.
Proof.
  unfold fwkdl.implementsNotificationExtractor, fwkdl.assertNotificationExtractor.
  by destruct (fwkdl.notification_method val).
Qed.

Lemma assert_dynamic val nExt :
  fwkdl.assertNotificationExtractor val = Some nExt ->
  fwkdl.dynamic nExt = val /\ fwkdl.implementsNotificationExtractor val = true.
Proof.
  unfold fwkdl.implementsNotificationExtractor, fwkdl.assertNotificationExtractor.
  destruct (fwkdl.notification_method val); [|discriminate].
  by intros [= <-].
Qed.

(** What [AddExtractor] does, case by case. *)
Lemma AddExtractor_nil s :
  AddExtractor s None = (s, Some (errors.New "cannot add nil extractor")).
Proof. reflexivity. Qed.

Lemma AddExtractor_mismatch s p :
  fwkdl.implementsNotificationExtractor p = false ->
  AddExtractor s (Some p) =
  (s, Some (errors.errorString
              ("extractor " +:+ rendered p
               +:+ " does not implement NotificationExtractor"))).
Proof. intros H. unfold AddExtractor. by rewrite (assert_not_implements _ H). Qed.

Lemma AddExtractor_duplicate s p :
  fwkdl.implementsNotificationExtractor p = true ->
  is_Some (extractors s !! name_of p) ->
  AddExtractor s (Some p) =
  (s, Some (errors.errorString
              ("duplicate extractor " +:+ rendered p
               +:+ " on notification source "
               +:+ fwkplugin.String_ (TypedName s)))).
Proof.
  intros H [old Hold]. unfold AddExtractor.
  destruct (assert_implements _ H) as (f & _ & ->). cbn [fwkdl.dynamic].
  unfold sync.LoadOrStore. fold (name_of p). rewrite Hold. by destruct s.
Qed.

Lemma AddExtractor_stored s p :
  fwkdl.implementsNotificationExtractor p = true ->
  extractors s !! name_of p = None ->
  AddExtractor s (Some p) =
  (mkSource (typedName s) (gvk s)
     (<[name_of p := p]> (extractors s)), None).
Proof.
  intros H Hnone. unfold AddExtractor.
  destruct (assert_implements _ H) as (f & _ & ->). cbn [fwkdl.dynamic].
  unfold sync.LoadOrStore. fold (name_of p). by rewrite Hnone.
Qed.

Lemma well_formed_New pluginType pluginName g :
  well_formed (NewK8sNotificationSource (World:=World) pluginType pluginName g).
Proof. intros key val. simpl. by rewrite lookup_empty. Qed.

Lemma well_formed_AddExtractor s ext :
  well_formed s -> well_formed (fst (AddExtractor s ext)).
Proof.
  intros Hwf. destruct ext as [p|]; [|done].
  destruct (fwkdl.implementsNotificationExtractor p) eqn:Himpl.
  - destruct (extractors s !! name_of p) eqn:Hk.
    + by rewrite AddExtractor_duplicate.
    + rewrite AddExtractor_stored by done. simpl.
      intros key val. simpl. rewrite lookup_insert.
      case_decide as Hd; [|apply Hwf].
      intros [= <-]. by subst key.
  - by rewrite AddExtractor_mismatch.
Qed.

Lemma reachable_well_formed s : reachable s -> well_formed s.
Proof.
  induction 1 as [pt pn g | s ext _ IH].
  - apply well_formed_New.
  - by apply well_formed_AddExtractor.
Qed.

Lemma enumerates_implements s order :
  well_formed s -> sync.enumerates order (extractors s) ->
  Forall (fun kv => fwkdl.implementsNotificationExtractor kv.2 = true) order.
Proof.
  intros Hwf Hperm. apply Forall_forall. intros [k v] Hin. simpl.
  rewrite Hperm in Hin. apply elem_of_map_to_list in Hin.
  by destruct (Hwf _ _ Hin).
Qed.


(** The dispatch loop: one call per stored value that passes the type
    assertion, in enumeration order; the errors are appended in that order. *)
Lemma Range_notifyOne order ctx event errs env :
  exists new w,
    sync.Range order (notifyOne ctx event) (errs, env) =
      (errs ++ omap wrapped new,
       fwkdl.mkEnv w (fwkdl.calls env ++ new) (fwkdl.logs env)) /\
    fwkdl.callee <$> new =
      filter (fun val => fwkdl.implementsNotificationExtractor val = true) order.*2 /\
    Forall (fun c => fwkdl.call_ctx c = ctx /\ fwkdl.call_event c = event) new.
Proof.
  revert errs env. induction order as [|[key val] rest IH]; intros errs env.
  - exists [], (fwkdl.world env). simpl. rewrite !app_nil_r. by destruct env.
  - simpl. destruct (fwkdl.implementsNotificationExtractor val) eqn:Himpl.
    + destruct (assert_implements _ Himpl) as (f & Hf & ->).
      unfold fwkdl.invoke. simpl.
      destruct (f ctx event (fwkdl.world env)) as [w1 err] eqn:Hcall.
      set (c := fwkdl.mkCall val ctx event err).
      rewrite filter_cons_True by done.
      destruct err as [err|].
      * edestruct IH as (new & w & -> & Hcallee & Hall).
        exists (c :: new), w. simpl. rewrite <- !app_assoc. simpl.
        split; [done|]. split; [f_equal; exact Hcallee|]. by constructor.
      * edestruct IH as (new & w & -> & Hcallee & Hall).
        exists (c :: new), w. simpl. rewrite <- !app_assoc. simpl.
        split; [done|]. split; [f_equal; exact Hcallee|]. by constructor.
    + rewrite (assert_not_implements _ Himpl).
      rewrite filter_cons_False by (rewrite Himpl; discriminate).
      apply IH.
Qed.

Lemma Notify_trace order s ctx event env :
  exists new w,
    Notify order s ctx event env =
      (tt, fwkdl.mkEnv w (fwkdl.calls env ++ new)
             (fwkdl.logs env ++
              match omap wrapped new with
              | [] => []
              | (_ :: _) as es =>
                  [fwkdl.mkLogEntry (notify_logger s ctx event)
                     (Some (errors.joinError es)) failure_message]
              end)) /\
    fwkdl.callee <$> new =
      filter (fun val => fwkdl.implementsNotificationExtractor val = true) order.*2 /\
    Forall (fun c => fwkdl.call_ctx c = ctx /\ fwkdl.call_event c = event) new.
Proof.
  destruct (Range_notifyOne order ctx event [] env) as (new & w & HR & Hc & Hall).
  exists new, w. split; [|done].
  unfold Notify. rewrite HR. simpl.
  rewrite Join_all_non_nil.
  destruct (omap wrapped new) as [|e es]; simpl.
  - by rewrite app_nil_r.
  - done.
Qed.

Lemma filter_implements_all s order :
  well_formed s -> sync.enumerates order (extractors s) ->
  filter (fun val => fwkdl.implementsNotificationExtractor val = true) order.*2
  = order.*2.
Proof.
  intros Hwf Hen. pose proof (enumerates_implements _ _ Hwf Hen) as Hall.
  clear Hen. induction Hall as [|[k v] rest Hv _ IH]; [done|].
  simpl in Hv. rewrite fmap_cons. simpl snd.
  rewrite filter_cons_True by done. f_equal. exact IH.
Qed.


(** The loop of [Extractors]: one rendered name per stored value that passes
    the type assertion. *)
Lemma Range_Extractors order (names : list string) :
  sync.Range order
    (fun _ val (names : list string) =>
       match fwkdl.assertNotificationExtractor val with
       | Some ext =>
           (names ++ [fwkplugin.String_ (fwkdl.TypedName (fwkdl.dynamic ext))], true)
       | None => (names, true)
       end) names
  = names ++ (rendered <$>
              filter (fun val => fwkdl.implementsNotificationExtractor val = true) order.*2).
Proof.
  revert names. induction order as [|[key val] rest IH]; intros names.
  - simpl. by rewrite app_nil_r.
  - rewrite fmap_cons. simpl snd. simpl sync.Range.
    destruct (fwkdl.implementsNotificationExtractor val) eqn:Himpl.
    + destruct (assert_implements _ Himpl) as (f & _ & ->).
      rewrite filter_cons_True by done.
      rewrite IH, fmap_cons, <- app_assoc. done.
    + rewrite (assert_not_implements _ Himpl).
      rewrite filter_cons_False by (rewrite Himpl; discriminate).
      apply IH.
Qed.

Lemma Extractors_rendering order s :
  Extractors order s =
  rendered <$>
    filter (fun val => fwkdl.implementsNotificationExtractor val = true) order.*2.
Proof. unfold Extractors. by rewrite Range_Extractors. Qed.

Lemma filter_none {A} (P : A -> Prop) `{forall x, Decision (P x)} (l : list A) :
  (forall x, x ∈ l -> ~ P x) -> filter P l = [].
Proof.
  induction l as [|a l IH]; intros Hno; [done|].
  rewrite filter_cons_False by (apply Hno; left).
  apply IH. intros x Hx. apply Hno. by right.
Qed.

(** In a list without two elements of the same key, selecting by the key of
    a member yields that member alone. *)
Lemma filter_by_unique_key {A B} `{EqDecision B} (f : A -> B) (l : list A) (x : A) :
  NoDup (f <$> l) -> x ∈ l -> filter (fun y => f y = f x) l = [x].
Proof.
  induction l as [|a l IH]; intros Hnd Hin.
  - by apply elem_of_nil in Hin.
  - rewrite fmap_cons in Hnd. apply NoDup_cons in Hnd as [Hfresh Hnd].
    apply elem_of_cons in Hin as [->|Hin].
    + rewrite filter_cons_True by done. f_equal.
      apply filter_none. intros y Hy Heq.
      apply Hfresh. rewrite <- Heq. by apply list_elem_of_fmap_2.
    + rewrite filter_cons_False.
      * by apply IH.
      * intros Heq. apply Hfresh. rewrite Heq. by apply list_elem_of_fmap_2.
Qed.

Lemma enumeration_names s order :
  well_formed s -> sync.enumerates order (extractors s) ->
  name_of <$> order.*2 = order.*1 /\ NoDup order.*1.
Proof.
  intros Hwf Hen. split.
  - rewrite <- list_fmap_compose. apply Forall_fmap_ext_1, Forall_forall.
    intros [k v] Hin. simpl. rewrite Hen in Hin.
    apply elem_of_map_to_list in Hin. by destruct (Hwf _ _ Hin).
  - unfold sync.enumerates in Hen. rewrite Hen. apply NoDup_fst_map_to_list.
Qed.

(** One [Notify]: a registered extractor is called exactly once. *)
Lemma Notify_calls_to s order ctx event env key p :
  well_formed s -> sync.enumerates order (extractors s) ->
  extractors s !! key = Some p ->
  exists new r,
    fwkdl.calls (snd (Notify order s ctx event env)) = fwkdl.calls env ++ new /\
    calls_to key new = [fwkdl.mkCall p ctx event r].
Proof.
  intros Hwf Hen Hp.
  destruct (Notify_trace order s ctx event env) as (new & w & -> & Hcallee & Hall).
  rewrite (filter_implements_all _ _ Hwf Hen) in Hcallee.
  destruct (enumeration_names _ _ Hwf Hen) as [Hnames Hnd].
  assert (Hpin : p ∈ order.*2).
  { apply list_elem_of_fmap. exists (key, p). split; [done|].
    rewrite Hen. by apply elem_of_map_to_list. }
  rewrite <- Hcallee in Hpin. apply list_elem_of_fmap in Hpin as (c & Hc & Hcin).
  assert (Hkey : name_of (fwkdl.callee c) = key).
  { rewrite <- Hc. by destruct (Hwf _ _ Hp). }
  rewrite <- Hcallee, <- list_fmap_compose in Hnames. rewrite <- Hnames in Hnd.
  exists new, (fwkdl.call_result c). split; [done|].
  unfold calls_to. rewrite <- Hkey.
  rewrite (filter_by_unique_key (name_of ∘ fwkdl.callee) new c Hnd Hcin).
  apply Forall_forall with (x := c) in Hall as [Hctx Hev]; [|done].
  destruct c; simpl in *. by subst.
Qed.

Lemma NotifyAll_calls_to s ds env key p :
  well_formed s ->
  Forall (fun d => sync.enumerates (delivery_order d) (extractors s)) ds ->
  extractors s !! key = Some p ->
  exists new,
    fwkdl.calls (NotifyAll s ds env) = fwkdl.calls env ++ new /\
    (fun c => (fwkdl.callee c, fwkdl.call_ctx c, fwkdl.call_event c)) <$> calls_to key new
    = (fun d => (p, delivery_ctx d, delivery_event d)) <$> ds.
Proof.
  intros Hwf Hall Hp. revert env.
  induction Hall as [|d ds Hd _ IH]; intros env.
  - exists []. simpl. by rewrite app_nil_r.
  - simpl NotifyAll.
    destruct (Notify_calls_to s (delivery_order d) (delivery_ctx d)
                (delivery_event d) env key p Hwf Hd Hp) as (new1 & r & Hcalls & Hto).
    destruct (IH (snd (Notify (delivery_order d) s (delivery_ctx d)
                         (delivery_event d) env))) as (new2 & -> & Hrest).
    exists (new1 ++ new2). rewrite Hcalls, app_assoc. split; [done|].
    unfold calls_to in *. rewrite filter_app, fmap_app, Hto, Hrest. done.
Qed.

Lemma run_reachable {Endpoint} (ops : list (Op World Endpoint)) s env :
  reachable s -> reachable (fst (run ops (s, env))).
Proof.
  revert s env. induction ops as [|op ops IH]; intros s env Hs; [done|].
  simpl. destruct op as [ext|order ctx event|ctx target]; simpl.
  - apply IH. by constructor.
  - by apply IH.
  - by apply IH.
Qed.


(** A successful [AddExtractor] received a plugin with the refined
    capability whose name was free, and stored it under that name. *)
Lemma AddExtractor_success s ext s' :
  AddExtractor s ext = (s', None) ->
  exists p,
    ext = Some p /\
    fwkdl.implementsNotificationExtractor p = true /\
    extractors s !! name_of p = None /\
    s' = mkSource (typedName s) (gvk s) (<[name_of p := p]> (extractors s)).
Proof.
  destruct ext as [p|]; [|discriminate].
  destruct (fwkdl.implementsNotificationExtractor p) eqn:Himpl.
  - destruct (extractors s !! name_of p) eqn:Hk.
    + rewrite AddExtractor_duplicate by (done || by eexists). discriminate.
    + rewrite AddExtractor_stored by done. intros [= <-]. by exists p.
  - rewrite AddExtractor_mismatch by done. discriminate.
Qed.

(** A failed [AddExtractor] leaves the source as it was. *)
Lemma AddExtractor_failure s ext s' e :
  AddExtractor s ext = (s', Some e) -> s' = s.
Proof.
  destruct ext as [p|]; [|by intros [= <- _]].
  destruct (fwkdl.implementsNotificationExtractor p) eqn:Himpl.
  - destruct (extractors s !! name_of p) eqn:Hk.
    + rewrite AddExtractor_duplicate by (done || by eexists). by intros [= <- _].
    + rewrite AddExtractor_stored by done. discriminate.
  - rewrite AddExtractor_mismatch by done. by intros [= <- _].
Qed.

Lemma AddExtractors_content s exts s' errs :
  AddExtractors s exts = (s', errs) ->
  length (accepted exts errs) = successes errs /\
  map_to_list (extractors s') ≡ₚ
    ((fun p => (name_of p, p)) <$> accepted exts errs) ++ map_to_list (extractors s).
Proof.
  revert s s' errs. induction exts as [|ext rest IH]; intros s s' errs.
  - simpl. by intros [= <- <-].
  - simpl. destruct (AddExtractor s ext) as [s1 err] eqn:Hadd.
    destruct (AddExtractors s1 rest) as [s2 errs2] eqn:Hrest.
    intros [= <- <-]. destruct (IH _ _ _ Hrest) as [Hlen Hperm].
    unfold successes in *. destruct err as [e|].
    + apply AddExtractor_failure in Hadd. subst s1.
      rewrite filter_cons_False by done. by destruct ext.
    + destruct (AddExtractor_success _ _ _ Hadd) as (p & -> & Himpl & Hfree & ->).
      rewrite filter_cons_True by done. cbn [accepted length].
      split; [by rewrite Hlen|].
      rewrite Hperm. cbn [extractors]. rewrite (map_to_list_insert _ _ _ Hfree).
      rewrite fmap_cons. by rewrite <- Permutation_middle.
Qed.

(** Substring facts. *)
Lemma prefix_app (sub rest : string) : String.prefix sub (sub +:+ rest) = true.
Proof.
  induction sub as [|a sub IH]; simpl; [by destruct rest|].
  destruct (ascii_dec a a); [exact IH | done].
Qed.

Lemma contains_app_r (sub a s : string) :
  contains sub s = true -> contains sub (a +:+ s) = true.
Proof.
  intros H. induction a as [|c a IH]; [done|].
  simpl. rewrite IH. apply orb_true_r.
Qed.

Lemma contains_middle (sub a b : string) : contains sub (a +:+ sub +:+ b) = true.
Proof.
  apply contains_app_r. destruct sub; simpl.
  - by destruct b.
  - destruct (ascii_dec a0 a0); [|done]. by rewrite prefix_app.
Qed.

End Lemmas.

Section MoreLemmas.
Context {World : Type}.
Implicit Types (s : K8sNotificationSource World) (val p : fwkdl.Plugin World)
  (env : fwkdl.Env World) (order : list (string * fwkdl.Plugin World)).

Lemma AddExtractors_reachable s exts :
  reachable s -> reachable (fst (AddExtractors s exts)).
Proof.
  revert s. induction exts as [|ext rest IH]; intros s Hs; [done|].
  simpl. destruct (AddExtractor s ext) as [s1 err] eqn:Hadd.
  specialize (IH s1). destruct (AddExtractors s1 rest) as [s2 errs].
  simpl in *. apply IH. change s1 with (fst (s1, err)). rewrite <- Hadd.
  by constructor.
Qed.

Lemma string_length_app (a b : string) :
  String.length (a +:+ b) = String.length a + String.length b.
Proof. induction a as [|c a IH]; simpl; [done | by rewrite IH]. Qed.

Lemma rendered_not_name p : rendered p <> name_of p.
Proof.
  unfold rendered, name_of, fwkplugin.String_. intros Heq.
  apply (f_equal String.length) in Heq.
  rewrite !string_length_app in Heq. simpl in Heq. lia.
Qed.

Lemma Notify_callees s order ctx event env :
  well_formed s -> sync.enumerates order (extractors s) ->
  exists new,
    fwkdl.calls (snd (Notify order s ctx event env)) = fwkdl.calls env ++ new /\
    fwkdl.callee <$> new = order.*2 /\
    Forall (fun c => fwkdl.call_ctx c = ctx /\ fwkdl.call_event c = event) new.
Proof.
  intros Hwf Hen.
  destruct (Notify_trace order s ctx event env) as (new & w & -> & Hcallee & Hall).
  rewrite (filter_implements_all _ _ Hwf Hen) in Hcallee. by exists new.
Qed.

Lemma enumeration_length s order :
  sync.enumerates order (extractors s) -> length order = size (extractors s).
Proof. intros Hen. unfold sync.enumerates in Hen. by rewrite Hen, length_map_to_list. Qed.

End MoreLemmas.

Section Executions.
Context {World : Type}.
Implicit Types (s : K8sNotificationSource World) (val p : fwkdl.Plugin World)
  (env : fwkdl.Env World) (order : list (string * fwkdl.Plugin World)).

Lemma performed_app (w w1 w2 : World) (l1 l2 : list (fwkdl.Call World)) :
  performed w l1 w1 -> performed w1 l2 w2 -> performed w (l1 ++ l2) w2.
Proof.
  revert w. induction l1 as [|c l1 IH]; intros w.
  - cbn. by intros ->.
  - cbn [performed app]. intros (f & Hf & Hr & Hrest) H2.
    exists f. split; [done|]. split; [done|]. by apply IH.
Qed.

(** The dispatch loop really runs the extractors: its new calls are a
    performed trace from the world it started in to the world it leaves. *)
Lemma Range_notifyOne_performed order ctx event errs env :
  exists new,
    fwkdl.calls (snd (sync.Range order (notifyOne ctx event) (errs, env)))
      = fwkdl.calls env ++ new /\
    performed (fwkdl.world env) new
      (fwkdl.world (snd (sync.Range order (notifyOne ctx event) (errs, env)))).
Proof.
  revert errs env. induction order as [|[key val] rest IH]; intros errs env.
  - exists []. cbn. by rewrite app_nil_r.
  - cbn [sync.Range notifyOne].
    unfold fwkdl.assertNotificationExtractor, fwkdl.invoke.
    destruct (fwkdl.notification_method val) as [f|] eqn:Hf; [|apply IH].
    cbn [fwkdl.ExtractNotification fwkdl.dynamic].
    destruct (f ctx event (fwkdl.world env)) as [w1 err] eqn:Hcall.
    set (c := fwkdl.mkCall val ctx event err).
    set (env1 := fwkdl.mkEnv w1 (fwkdl.calls env ++ [c]) (fwkdl.logs env)).
    assert (Hstep : forall errs1,
      exists new,
        fwkdl.calls (snd (sync.Range rest (notifyOne ctx event) (errs1, env1)))
          = fwkdl.calls env ++ new /\
        performed (fwkdl.world env) new
          (fwkdl.world (snd (sync.Range rest (notifyOne ctx event) (errs1, env1))))).
    { intros errs1. destruct (IH errs1 env1) as (new & Hcalls & Hperf).
      exists (c :: new). split.
      - rewrite Hcalls. subst env1. cbn [fwkdl.calls]. by rewrite <- app_assoc.
      - cbn [performed]. exists f. subst c. cbn. rewrite Hcall. cbn.
        split; [done|]. split; [done|]. exact Hperf. }
    destruct err as [e|]; apply Hstep.
Qed.

Lemma Notify_performed order s ctx event env :
  exists new,
    fwkdl.calls (snd (Notify order s ctx event env)) = fwkdl.calls env ++ new /\
    performed (fwkdl.world env) new (fwkdl.world (snd (Notify order s ctx event env))).
Proof.
  destruct (Range_notifyOne_performed order ctx event [] env) as (new & Hcalls & Hperf).
  exists new. unfold Notify.
  destruct (sync.Range order (notifyOne ctx event) ([], env)) as [errs env'].
  cbn [snd] in Hcalls, Hperf. by destruct (0 <? length errs)%nat.
Qed.

Lemma NotifyAll_performed s (ds : list (Delivery (World:=World))) env :
  exists new,
    fwkdl.calls (NotifyAll s ds env) = fwkdl.calls env ++ new /\
    performed (fwkdl.world env) new (fwkdl.world (NotifyAll s ds env)).
Proof.
  revert env. induction ds as [|d ds IH]; intros env.
  - exists []. cbn. by rewrite app_nil_r.
  - cbn [NotifyAll].
    destruct (Notify_performed (delivery_order d) s (delivery_ctx d)
                (delivery_event d) env) as (new1 & Hcalls1 & Hperf1).
    destruct (IH (snd (Notify (delivery_order d) s (delivery_ctx d)
                         (delivery_event d) env))) as (new2 & Hcalls2 & Hperf2).
    exists (new1 ++ new2). split.
    + by rewrite Hcalls2, Hcalls1, app_assoc.
    + by eapply performed_app.
Qed.

End Executions.

(** * Properties of the notification source *)

Section Properties.
Context {World : Type}.
Implicit Types (s : K8sNotificationSource World) (val p : fwkdl.Plugin World)
  (env : fwkdl.Env World) (order : list (string * fwkdl.Plugin World)).

(** C1 (isolation).  On a source built by the constructor and [AddExtractor],
    one [Notify] runs the [ExtractNotification] method of every registered
    extractor, and of nothing else, on the given context and event: the new
    calls were really performed, each on the world the call before it left
    and with the result the method returned, up to the world [Notify] leaves;
    their callees are the stored values; and each registered extractor is
    called exactly once, whatever any of the calls returns. *)
Theorem Notify_delivers_to_every_extractor s order ctx event env :
  reachable s -> sync.enumerates order (extractors s) ->
  exists new,
    fwkdl.calls (snd (Notify order s ctx event env)) = fwkdl.calls env ++ new /\
    performed (fwkdl.world env) new
      (fwkdl.world (snd (Notify order s ctx event env))) /\
    fwkdl.callee <$> new ≡ₚ (map_to_list (extractors s)).*2 /\
    Forall (fun c => fwkdl.call_ctx c = ctx /\ fwkdl.call_event c = event) new /\
    forall key p, extractors s !! key = Some p ->
      exists r, calls_to key new = [fwkdl.mkCall p ctx event r].
Proof.
  intros Hs Hen. pose proof (reachable_well_formed _ Hs) as Hwf.
  destruct (Notify_callees s order ctx event env Hwf Hen) as (new & Hcalls & Hcallee & Hall).
  exists new. split; [done|]. split.
  { destruct (Notify_performed order s ctx event env) as (new0 & Hcalls0 & Hperf).
    rewrite Hcalls in Hcalls0. apply app_inv_head in Hcalls0. by subst new0. }
  split.
  { rewrite Hcallee. unfold sync.enumerates in Hen. by rewrite Hen. }
  split; [done|]. intros key p Hp.
  destruct (Notify_calls_to s order ctx event env key p Hwf Hen Hp)
    as (new' & r & Hcalls' & Hto).
  rewrite Hcalls in Hcalls'. apply app_inv_head in Hcalls'. subst new'.
  by exists r.
Qed.

(** C2 (ordering).  Over successive [Notify] calls on a source, whatever
    enumeration each call follows, the new calls were really performed, one
    after the other from the world before the first delivery to the world
    after the last, and those among them that ran a registered extractor ran
    it on exactly the delivered events with their contexts, in arrival order,
    one call per delivery: nothing is reordered, merged or dropped, repeated
    events included. *)
Theorem Notify_preserves_arrival_order s (ds : list (Delivery (World:=World))) env key p :
  reachable s ->
  Forall (fun d => sync.enumerates (delivery_order d) (extractors s)) ds ->
  extractors s !! key = Some p ->
  exists new,
    fwkdl.calls (NotifyAll s ds env) = fwkdl.calls env ++ new /\
    performed (fwkdl.world env) new (fwkdl.world (NotifyAll s ds env)) /\
    (fun c => (fwkdl.callee c, fwkdl.call_ctx c, fwkdl.call_event c)) <$> calls_to key new
    = (fun d => (p, delivery_ctx d, delivery_event d)) <$> ds.
Proof.
  intros Hs Hall Hp. pose proof (reachable_well_formed _ Hs) as Hwf.
  destruct (NotifyAll_calls_to s ds env key p Hwf Hall Hp) as (new & Hcalls & Hto).
  exists new. split; [done|]. split; [|done].
  destruct (NotifyAll_performed s ds env) as (new0 & Hcalls0 & Hperf).
  rewrite Hcalls in Hcalls0. apply app_inv_head in Hcalls0. by subst new0.
Qed.


(** C4 (registration errors).  [AddExtractor] fails exactly for a nil
    argument, for a plugin without the [NotificationExtractor] capability, and
    for a plugin whose name is already taken; each case has its own error;
    a failed call leaves the source as it was (so the earlier registration
    stays), and a successful call stores the plugin under its name and changes
    nothing else. *)
Theorem AddExtractor_error_cases s (ext : option (fwkdl.Plugin World)) :
  (snd (AddExtractor s ext) <> None <->
     ext = None \/
     (exists p, ext = Some p /\ fwkdl.implementsNotificationExtractor p = false) \/
     (exists p, ext = Some p /\ fwkdl.implementsNotificationExtractor p = true /\
                is_Some (extractors s !! name_of p))) /\
  (ext = None ->
     snd (AddExtractor s ext) = Some (errors.New "cannot add nil extractor")) /\
  (forall p, ext = Some p -> fwkdl.implementsNotificationExtractor p = false ->
     snd (AddExtractor s ext) =
       Some (errors.errorString
               ("extractor " +:+ rendered p
                +:+ " does not implement NotificationExtractor"))) /\
  (forall p, ext = Some p -> fwkdl.implementsNotificationExtractor p = true ->
     is_Some (extractors s !! name_of p) ->
     snd (AddExtractor s ext) =
       Some (errors.errorString
               ("duplicate extractor " +:+ rendered p
                +:+ " on notification source "
                +:+ fwkplugin.String_ (TypedName s)))) /\
  (snd (AddExtractor s ext) <> None -> fst (AddExtractor s ext) = s) /\
  (snd (AddExtractor s ext) = None ->
     exists p, ext = Some p /\
       fst (AddExtractor s ext) =
         mkSource (typedName s) (gvk s) (<[name_of p := p]> (extractors s)) /\
       extractors (fst (AddExtractor s ext)) !! name_of p = Some p).
Proof.
  destruct ext as [p|].
  - destruct (fwkdl.implementsNotificationExtractor p) eqn:Himpl.
    + destruct (extractors s !! name_of p) as [old|] eqn:Hk.
      * rewrite AddExtractor_duplicate by (done || by eexists). simpl.
        repeat split; try done.
        -- intros _. right; right. exists p. eauto.
        -- intros q [= <-]. congruence.
        -- by intros q [= <-].
      * rewrite AddExtractor_stored by done. simpl.
        repeat split; try done.
        -- intros [|[(q & [= <-] & Hq)|(q & [= <-] & _ & Hq)]]; try done.
           ++ congruence.
           ++ rewrite Hk in Hq. by destruct Hq.
        -- intros q [= <-]. congruence.
        -- intros q [= <-] _ Hq. rewrite Hk in Hq. by destruct Hq.
        -- intros _. exists p. by rewrite lookup_insert_eq.
    + rewrite AddExtractor_mismatch by done. simpl.
      repeat split; try done.
      * intros _. right; left. by exists p.
      * by intros q [= <-].
      * intros q [= <-]. congruence.
  - simpl. repeat split; try done. intros _. by left.
Qed.


(** C5, as the code has it (the name alone is the key).  After a plugin with
    a free name has been registered, a second plugin with the refined
    capability is accepted exactly when its [Name] differs from the first
    one's and is free as well; the [Type] part of the [TypedName] plays no
    role, so two plugins of different types and equal names collide. *)
Theorem Name_is_the_uniqueness_key s p1 p2 :
  fwkdl.implementsNotificationExtractor p1 = true ->
  fwkdl.implementsNotificationExtractor p2 = true ->
  extractors s !! name_of p1 = None ->
  snd (AddExtractor s (Some p1)) = None /\
  (snd (AddExtractor (fst (AddExtractor s (Some p1))) (Some p2)) = None <->
   name_of p1 <> name_of p2 /\ extractors s !! name_of p2 = None).
Proof.
  intros H1 H2 Hfree. rewrite (AddExtractor_stored s p1 H1 Hfree). cbn [fst snd].
  split; [done|].
  set (s1 := mkSource _ _ _).
  destruct (decide (name_of p1 = name_of p2)) as [Heq|Hne].
  - rewrite AddExtractor_duplicate; [|done|].
    + simpl. split; [done|]. by intros [? _].
    + subst s1. cbn [extractors]. rewrite <- Heq, lookup_insert_eq. by eexists.
  - destruct (extractors s !! name_of p2) as [old|] eqn:Hk.
    + rewrite AddExtractor_duplicate; [|done|].
      * simpl. split; [done|]. by intros [_ ?].
      * subst s1. cbn [extractors]. rewrite lookup_insert_ne by done. by eexists.
    + rewrite AddExtractor_stored; [done|done|].
      subst s1. cbn [extractors]. by rewrite lookup_insert_ne.
Qed.

(** C6, as the code has it.  The error for a plugin without the refined
    capability names that plugin by its rendered [TypedName]; it is the same
    error on every source, so it does not identify the source. *)
Theorem mismatch_error_names_the_plugin s p :
  fwkdl.implementsNotificationExtractor p = false ->
  exists e,
    snd (AddExtractor s (Some p)) = Some e /\
    errors.Error e =
      "extractor " +:+ rendered p +:+ " does not implement NotificationExtractor" /\
    contains (rendered p) (errors.Error e) = true /\
    forall s', snd (AddExtractor s' (Some p)) = Some e.
Proof.
  intros Himpl. eexists. rewrite AddExtractor_mismatch by done. cbn [snd].
  split; [done|]. split; [done|]. split.
  - apply (contains_middle (rendered p) "extractor ").
  - intros s'. by rewrite AddExtractor_mismatch.
Qed.

(** C7 (cancellation is advisory).  Whatever the context, cancelled or not,
    [Notify] runs the [ExtractNotification] method of every registered
    extractor, in the order of the enumeration, on that very context and the
    event: the new calls were really performed, one after the other up to
    the world [Notify] leaves, and there are as many as extractors. *)
Theorem Notify_ignores_cancellation s order (flag : bool) (lg : fwkdl.Logger)
    event env :
  reachable s -> sync.enumerates order (extractors s) ->
  exists new,
    fwkdl.calls (snd (Notify order s (fwkdl.mkContext flag lg) event env))
      = fwkdl.calls env ++ new /\
    performed (fwkdl.world env) new
      (fwkdl.world (snd (Notify order s (fwkdl.mkContext flag lg) event env))) /\
    fwkdl.callee <$> new = order.*2 /\
    length new = size (extractors s) /\
    Forall (fun c => fwkdl.call_ctx c = fwkdl.mkContext flag lg /\
                     fwkdl.call_event c = event) new.
Proof.
  intros Hs Hen. pose proof (reachable_well_formed _ Hs) as Hwf.
  destruct (Notify_callees s order (fwkdl.mkContext flag lg) event env Hwf Hen)
    as (new & Hcalls & Hcallee & Hall).
  exists new. split; [done|]. split.
  { destruct (Notify_performed order s (fwkdl.mkContext flag lg) event env)
      as (new0 & Hcalls0 & Hperf).
    rewrite Hcalls in Hcalls0. apply app_inv_head in Hcalls0. by subst new0. }
  split; [done|]. split; [|done].
  rewrite <- (enumeration_length _ _ Hen).
  rewrite <- (length_fmap fwkdl.callee new), Hcallee. by rewrite length_fmap.
Qed.

(** C8.  [Collect] returns no error and hands back the source it was given:
    identity, watched kind and extractor map are what they were. *)
Theorem Collect_is_a_no_op {Endpoint : Type} s (ctx : fwkdl.Context)
    (target : Endpoint) :
  snd (Collect s ctx target) = None /\
  fst (Collect s ctx target) = s /\
  TypedName (fst (Collect s ctx target)) = TypedName s /\
  GVK (fst (Collect s ctx target)) = GVK s /\
  extractors (fst (Collect s ctx target)) = extractors s.
Proof. by unfold Collect. Qed.

(** C9 (invariant).  After any sequence of [AddExtractor], [Notify] and
    [Collect] on a fresh source, every stored value implements
    [NotificationExtractor]; hence the guards skip nothing: [Extractors]
    reports as many names as the map has entries, and [Notify] makes as many
    calls, one to each stored value. *)
Theorem stored_values_implement_NotificationExtractor {Endpoint : Type}
    (ops : list (Op World Endpoint)) pluginType pluginName g env0 :
  let s := fst (run ops (NewK8sNotificationSource pluginType pluginName g, env0)) in
  (forall key val, extractors s !! key = Some val ->
     is_Some (fwkdl.assertNotificationExtractor val)) /\
  (forall order, sync.enumerates order (extractors s) ->
     Extractors order s = rendered <$> order.*2 /\
     length (Extractors order s) = size (extractors s) /\
     forall ctx event env, exists new,
       fwkdl.calls (snd (Notify order s ctx event env)) = fwkdl.calls env ++ new /\
       fwkdl.callee <$> new = order.*2 /\
       length new = size (extractors s)).
Proof.
  intros s.
  assert (Hwf : well_formed s).
  { apply reachable_well_formed, run_reachable. constructor. }
  split.
  - intros key val Hval. destruct (Hwf _ _ Hval) as [Himpl _].
    destruct (assert_implements _ Himpl) as (f & _ & ->). by eexists.
  - intros order Hen.
    assert (HE : Extractors order s = rendered <$> order.*2).
    { by rewrite Extractors_rendering, (filter_implements_all _ _ Hwf Hen). }
    split; [done|]. split.
    + by rewrite HE, !length_fmap, (enumeration_length _ _ Hen).
    + intros ctx event env.
      destruct (Notify_callees s order ctx event env Hwf Hen)
        as (new & Hcalls & Hcallee & _).
      exists new. split; [done|]. split; [done|].
      rewrite <- (enumeration_length _ _ Hen).
      rewrite <- (length_fmap fwkdl.callee new), Hcallee. by rewrite length_fmap.
Qed.

(** C10.  After a run of [AddExtractor] calls on a fresh source, [Extractors]
    returns, in some order, the rendered [TypedName] of each plugin whose
    registration succeeded: as many entries as there were successful calls,
    none of them the bare name its plugin is keyed under.  On the fresh
    source itself the result is empty. *)
Theorem Extractors_reports_rendered_names pluginType pluginName g
    (exts : list (option (fwkdl.Plugin World))) s errs order :
  AddExtractors (NewK8sNotificationSource pluginType pluginName g) exts = (s, errs) ->
  sync.enumerates order (extractors s) ->
  Extractors order s ≡ₚ rendered <$> accepted exts errs /\
  length (Extractors order s) = successes errs /\
  Forall (fun p => rendered p <> name_of p) (accepted exts errs) /\
  (forall order0,
     sync.enumerates order0
       (extractors (NewK8sNotificationSource (World:=World) pluginType pluginName g)) ->
     Extractors order0 (NewK8sNotificationSource pluginType pluginName g) = []).
Proof.
  intros Hadd Hen.
  destruct (AddExtractors_content _ _ _ _ Hadd) as [Hlen Hperm].
  assert (Hwf : well_formed s).
  { apply reachable_well_formed. change s with (fst (s, errs)). rewrite <- Hadd.
    apply AddExtractors_reachable. constructor. }
  simpl in Hperm. rewrite map_to_list_empty, app_nil_r in Hperm.
  assert (Hvals : order.*2 ≡ₚ accepted exts errs).
  { unfold sync.enumerates in Hen. rewrite Hen, Hperm.
    rewrite <- list_fmap_compose. by rewrite list_fmap_id. }
  assert (HE : Extractors order s ≡ₚ rendered <$> accepted exts errs).
  { rewrite Extractors_rendering, (filter_implements_all _ _ Hwf Hen).
    by rewrite Hvals. }
  split; [done|]. split.
  - by rewrite HE, length_fmap.
  - split.
    + apply Forall_forall. intros p _. apply rendered_not_name.
    + intros order0 Hen0. unfold sync.enumerates in Hen0. simpl in Hen0.
      rewrite map_to_list_empty in Hen0. apply Permutation_nil_r in Hen0.
      by subst order0.
Qed.

End Properties.

(** * The properties on concrete sources *)

Import samples.

(** C1 at a source with one extractor that fails and one that records: both
    are called for the event. *)
Lemma Notify_delivers_to_every_extractor_witness :
  reachable two /\
  sync.enumerates (map_to_list (extractors two)) (extractors two) /\
  exists new,
    fwkdl.calls (snd (Notify (map_to_list (extractors two)) two live added env0))
      = fwkdl.calls env0 ++ new /\
    performed (fwkdl.world env0) new
      (fwkdl.world (snd (Notify (map_to_list (extractors two)) two live added env0))) /\
    fwkdl.callee <$> new ≡ₚ (map_to_list (extractors two)).*2 /\
    Forall (fun c => fwkdl.call_ctx c = live /\ fwkdl.call_event c = added) new /\
    forall key p, extractors two !! key = Some p ->
      exists r, calls_to key new = [fwkdl.mkCall p live added r].
Proof.
  assert (Hr : reachable two) by (unfold two, one, fresh; built).
  assert (He : sync.enumerates (map_to_list (extractors two)) (extractors two))
    by apply Permutation_refl.
  split; [exact Hr|]. split; [exact He|].
  exact (Notify_delivers_to_every_extractor two _ live added env0 Hr He).
Defined.

Example Notify_isolation_run :
  fwkdl.world (snd (Notify (map_to_list (extractors two)) two live added env0))
  = [("broken", added); ("lora-tracker", added)].
Proof. reflexivity. Qed.

(** C2 for three deliveries, the first event delivered twice. *)
Lemma Notify_preserves_arrival_order_witness :
  let order := map_to_list (extractors two) in
  let ds := [mkDelivery order live added; mkDelivery order live added;
             mkDelivery order done_ctx deleted] in
  reachable two /\
  Forall (fun d => sync.enumerates (delivery_order d) (extractors two)) ds /\
  extractors two !! "lora-tracker" = Some tracker /\
  exists new,
    fwkdl.calls (NotifyAll two ds env0) = fwkdl.calls env0 ++ new /\
    performed (fwkdl.world env0) new (fwkdl.world (NotifyAll two ds env0)) /\
    (fun c => (fwkdl.callee c, fwkdl.call_ctx c, fwkdl.call_event c))
      <$> calls_to "lora-tracker" new
    = [(tracker, live, added); (tracker, live, added); (tracker, done_ctx, deleted)].
Proof.
  intros order ds.
  assert (Hr : reachable two) by (unfold two, one, fresh; built).
  assert (He : Forall (fun d => sync.enumerates (delivery_order d) (extractors two)) ds).
  { subst ds. repeat (constructor; [apply Permutation_refl|]). constructor. }
  assert (Hl : extractors two !! "lora-tracker" = Some tracker) by reflexivity.
  split; [exact Hr|]. split; [exact He|]. split; [exact Hl|].
  exact (Notify_preserves_arrival_order two ds env0 "lora-tracker" tracker Hr He Hl).
Defined.

(** C3 where every registered extractor fails: the result is still the unit
    value, and the log holds the joined errors. *)
Example Notify_all_extractors_fail :
  let r := Notify (map_to_list (extractors allBroken)) allBroken live added env0 in
  fst r = tt /\
  fwkdl.entry_err <$> fwkdl.logs (snd r) =
    [Some (errors.joinError
             [errors.wrapError "extractor lora/broken2: broken2 failed"
                (errors.errorString "broken2 failed");
              errors.wrapError "extractor lora/broken: broken failed"
                (errors.errorString "broken failed")])].
Proof. split; reflexivity. Qed.

(** C5 as stated fails: two plugins with different [TypedName]s, both with
    the refined capability, and the second registration is refused. *)
Lemma distinct_TypedNames_collide :
  fwkdl.TypedName tracker <> fwkdl.TypedName tracker_other_type /\
  fwkdl.implementsNotificationExtractor tracker = true /\
  fwkdl.implementsNotificationExtractor tracker_other_type = true /\
  snd (AddExtractor fresh (Some tracker)) = None /\
  snd (AddExtractor (fst (AddExtractor fresh (Some tracker))) (Some tracker_other_type))
  = Some (errors.errorString
            "duplicate extractor model/lora-tracker on notification source k8s-notification-source/pods").
Proof. repeat split; try reflexivity. discriminate. Qed.

Lemma Name_is_the_uniqueness_key_witness :
  fwkdl.implementsNotificationExtractor tracker = true /\
  fwkdl.implementsNotificationExtractor broken = true /\
  extractors fresh !! name_of tracker = None /\
  snd (AddExtractor fresh (Some tracker)) = None /\
  (snd (AddExtractor (fst (AddExtractor fresh (Some tracker))) (Some broken)) = None <->
   name_of tracker <> name_of broken /\ extractors fresh !! name_of broken = None).
Proof.
  split; [reflexivity|]. split; [reflexivity|]. split; [reflexivity|].
  exact (Name_is_the_uniqueness_key fresh tracker broken eq_refl eq_refl eq_refl).
Defined.

(** C6 as stated fails: the error for a plugin without the refined
    capability does not mention the source. *)
Lemma mismatch_error_omits_the_source :
  fwkdl.implementsNotificationExtractor poller = false /\
  snd (AddExtractor fresh (Some poller)) =
    Some (errors.errorString
            "extractor metrics/poller does not implement NotificationExtractor") /\
  contains (fwkplugin.String_ (TypedName fresh))
    "extractor metrics/poller does not implement NotificationExtractor" = false /\
  contains (fwkplugin.Name (TypedName fresh))
    "extractor metrics/poller does not implement NotificationExtractor" = false.
Proof. repeat split; reflexivity. Qed.

Lemma mismatch_error_names_the_plugin_witness :
  fwkdl.implementsNotificationExtractor poller = false /\
  exists e,
    snd (AddExtractor one (Some poller)) = Some e /\
    errors.Error e =
      "extractor " +:+ rendered poller +:+ " does not implement NotificationExtractor" /\
    contains (rendered poller) (errors.Error e) = true /\
    forall s', snd (AddExtractor s' (Some poller)) = Some e.
Proof.
  split; [reflexivity|].
  exact (mismatch_error_names_the_plugin one poller eq_refl).
Defined.

(** C7 with a context that is already cancelled. *)
Lemma Notify_ignores_cancellation_witness :
  reachable two /\
  sync.enumerates (map_to_list (extractors two)) (extractors two) /\
  exists new,
    fwkdl.calls (snd (Notify (map_to_list (extractors two)) two
                        (fwkdl.mkContext true []) deleted env0))
      = fwkdl.calls env0 ++ new /\
    performed (fwkdl.world env0) new
      (fwkdl.world (snd (Notify (map_to_list (extractors two)) two
                           (fwkdl.mkContext true []) deleted env0))) /\
    fwkdl.callee <$> new = (map_to_list (extractors two)).*2 /\
    length new = size (extractors two) /\
    Forall (fun c => fwkdl.call_ctx c = fwkdl.mkContext true [] /\
                     fwkdl.call_event c = deleted) new.
Proof.
  assert (Hr : reachable two) by (unfold two, one, fresh; built).
  assert (He : sync.enumerates (map_to_list (extractors two)) (extractors two))
    by apply Permutation_refl.
  split; [exact Hr|]. split; [exact He|].
  exact (Notify_ignores_cancellation two _ true [] deleted env0 Hr He).
Defined.

Example Notify_cancelled_run :
  fwkdl.world (snd (Notify (map_to_list (extractors two)) two done_ctx deleted env0))
  = [("broken", deleted); ("lora-tracker", deleted)].
Proof. reflexivity. Qed.

(** C9 on a history that mixes the three operations and includes rejected
    registrations. *)
Example history_keeps_the_invariant :
  let ops : list (Op Journal unit) :=
    [OpAddExtractor (Some tracker); OpAddExtractor (Some poller);
     OpNotify [] live added; OpAddExtractor None;
     OpAddExtractor (Some tracker_other_type); OpCollect live tt;
     OpAddExtractor (Some broken)] in
  let s := fst (run ops (fresh, env0)) in
  Extractors (map_to_list (extractors s)) s = ["lora/broken"; "lora/lora-tracker"] /\
  size (extractors s) = 2.
Proof. split; reflexivity. Qed.

(** C10 for four calls of which two succeed. *)
Lemma Extractors_reports_rendered_names_witness :
  let exts := [Some tracker; Some poller; Some tracker_other_type; Some broken] in
  let errs :=
    [None;
     Some (errors.errorString
             "extractor metrics/poller does not implement NotificationExtractor");
     Some (errors.errorString
             "duplicate extractor model/lora-tracker on notification source k8s-notification-source/pods");
     None] in
  let order := map_to_list (extractors two) in
  AddExtractors fresh exts = (two, errs) /\
  sync.enumerates order (extractors two) /\
  Extractors order two ≡ₚ rendered <$> accepted exts errs /\
  length (Extractors order two) = successes errs /\
  Forall (fun p => rendered p <> name_of p) (accepted exts errs) /\
  (forall order0,
     sync.enumerates order0 (extractors fresh) -> Extractors order0 fresh = []).
Proof.
  intros exts errs order.
  assert (Ha : AddExtractors fresh exts = (two, errs)) by reflexivity.
  assert (He : sync.enumerates order (extractors two)) by apply Permutation_refl.
  split; [exact Ha|]. split; [exact He|].
  exact (Extractors_reports_rendered_names _ _ _ exts two errs order Ha He).
Defined.

Example Extractors_fresh : Extractors (map_to_list (extractors fresh)) fresh = [].
Proof. reflexivity. Qed.

Example Extractors_two :
  Extractors (map_to_list (extractors two)) two = ["lora/broken"; "lora/lora-tracker"].
Proof. reflexivity. Qed.

(** * Further properties of the notification source *)

Section SourceFacts.
Context {World : Type}.
Implicit Types (s : K8sNotificationSource World) (val p q : fwkdl.Plugin World)
  (env : fwkdl.Env World) (order : list (string * fwkdl.Plugin World)).

Lemma AddExtractor_identity s ext :
  typedName (fst (AddExtractor s ext)) = typedName s /\
  gvk (fst (AddExtractor s ext)) = gvk s.
Proof.
  destruct ext as [p|]; [|done].
  destruct (fwkdl.implementsNotificationExtractor p) eqn:Himpl.
  - destruct (extractors s !! name_of p) eqn:Hk.
    + by rewrite AddExtractor_duplicate by (done || by eexists).
    + by rewrite AddExtractor_stored.
  - by rewrite AddExtractor_mismatch.
Qed.

Lemma AddExtractor_keeps s ext key p :
  extractors s !! key = Some p ->
  extractors (fst (AddExtractor s ext)) !! key = Some p.
Proof.
  intros Hp. destruct ext as [q|]; [|done].
  destruct (fwkdl.implementsNotificationExtractor q) eqn:Himpl.
  - destruct (extractors s !! name_of q) eqn:Hk.
    + by rewrite AddExtractor_duplicate by (done || by eexists).
    + rewrite AddExtractor_stored by done. cbn [fst extractors].
      rewrite lookup_insert_ne; [done|]. intros <-. congruence.
  - by rewrite AddExtractor_mismatch.
Qed.

Lemma run_identity {Endpoint : Type} (ops : list (Op World Endpoint)) s env :
  typedName (fst (run ops (s, env))) = typedName s /\
  gvk (fst (run ops (s, env))) = gvk s.
Proof.
  revert s env. induction ops as [|op ops IH]; intros s env; [done|].
  cbn [run fold_left]. destruct op as [ext|order ctx event|ctx target]; cbn [step].
  - destruct (AddExtractor_identity s ext) as [<- <-]. apply IH.
  - apply IH.
  - apply IH.
Qed.

(** X1.  The identity and the watched kind of a source are those given to
    the constructor, after any history of [AddExtractor], [Notify] and
    [Collect]. *)
Theorem identity_is_fixed_at_construction {Endpoint : Type}
    (ops : list (Op World Endpoint)) pluginType pluginName g env0 :
  let s := fst (run ops (NewK8sNotificationSource pluginType pluginName g, env0)) in
  TypedName s = fwkplugin.mkTypedName pluginType pluginName /\ GVK s = g.
Proof.
  cbv zeta. unfold TypedName, GVK.
  by destruct (run_identity ops (NewK8sNotificationSource pluginType pluginName g) env0)
    as [-> ->].
Qed.

(** X2.  Registrations are permanent: whatever operations follow, an
    extractor stays in the map under its key, with the value first stored. *)
Theorem registrations_are_permanent {Endpoint : Type}
    (ops : list (Op World Endpoint)) s env key p :
  extractors s !! key = Some p ->
  extractors (fst (run ops (s, env))) !! key = Some p.
Proof.
  revert s env. induction ops as [|op ops IH]; intros s env Hp; [done|].
  cbn [run fold_left]. destruct op as [ext|order ctx event|ctx target]; cbn [step].
  - apply IH. by apply AddExtractor_keeps.
  - by apply IH.
  - by apply IH.
Qed.

(** X3.  On a source without extractors [Notify] does nothing: no call, no
    log entry, the surroundings are as before. *)
Theorem Notify_without_extractors s order ctx event env :
  extractors s = ∅ -> sync.enumerates order (extractors s) ->
  Notify order s ctx event env = (tt, env).
Proof.
  intros Hempty Hen. unfold sync.enumerates in Hen.
  rewrite Hempty, map_to_list_empty in Hen. apply Permutation_nil_r in Hen.
  subst order. reflexivity.
Qed.

(** X4.  Dispatch is sequential: each extractor runs on the world the
    previous one left, in the order of the enumeration, and the world after
    [Notify] is the one the last extractor left. *)
Theorem Notify_threads_the_world order s ctx event env :
  fwkdl.world (snd (Notify order s ctx event env)) =
  foldl (fun w val =>
           match fwkdl.notification_method val with
           | Some f => fst (f ctx event w)
           | None => w
           end) (fwkdl.world env) order.*2.
Proof.
  unfold Notify.
  assert (Hloop : forall errs env0,
    fwkdl.world (snd (sync.Range order (notifyOne ctx event) (errs, env0))) =
    foldl (fun w val =>
             match fwkdl.notification_method val with
             | Some f => fst (f ctx event w)
             | None => w
             end) (fwkdl.world env0) order.*2).
  { induction order as [|[key val] rest IH]; intros errs env0; [done|].
    rewrite fmap_cons. cbn [sync.Range snd foldl notifyOne].
    unfold fwkdl.assertNotificationExtractor, fwkdl.invoke.
    destruct (fwkdl.notification_method val) as [f|]; cbn.
    - destruct (f ctx event (fwkdl.world env0)) as [w [err|]]; cbn; by rewrite IH.
    - by rewrite IH. }
  specialize (Hloop [] env).
  destruct (sync.Range order (notifyOne ctx event) ([], env)) as [errs env'].
  cbn [snd] in Hloop. by destruct (0 <? length errs)%nat.
Qed.

(** X5.  Offering the same argument twice: the second call always fails, and
    the source is as the first call left it. *)
Theorem AddExtractor_twice s (ext : option (fwkdl.Plugin World)) :
  fst (AddExtractor (fst (AddExtractor s ext)) ext) = fst (AddExtractor s ext) /\
  snd (AddExtractor (fst (AddExtractor s ext)) ext) <> None.
Proof.
  destruct ext as [p|]; [|done].
  destruct (fwkdl.implementsNotificationExtractor p) eqn:Himpl.
  - destruct (extractors s !! name_of p) eqn:Hk.
    + rewrite (AddExtractor_duplicate s p) by (done || by eexists). cbn [fst].
      by rewrite (AddExtractor_duplicate s p) by (done || by eexists).
    + rewrite (AddExtractor_stored s p) by done. cbn [fst].
      rewrite AddExtractor_duplicate; [done|done|].
      cbn [extractors]. rewrite lookup_insert_eq. by eexists.
  - rewrite (AddExtractor_mismatch s p) by done. cbn [fst].
    by rewrite (AddExtractor_mismatch s p) by done.
Qed.

(** X6.  Registrations under different names do not interfere: either order
    gives the same source, and the answer a plugin gets does not depend on
    whether the other one was offered before. *)
Theorem AddExtractor_commutes s p q :
  name_of p <> name_of q ->
  fst (AddExtractor (fst (AddExtractor s (Some p))) (Some q)) =
  fst (AddExtractor (fst (AddExtractor s (Some q))) (Some p)) /\
  snd (AddExtractor (fst (AddExtractor s (Some p))) (Some q)) =
  snd (AddExtractor s (Some q)).
Proof.
  intros Hne.
  assert (Hstep : forall (a b : fwkdl.Plugin World), name_of a <> name_of b ->
    extractors (fst (AddExtractor s (Some a))) !! name_of b = extractors s !! name_of b).
  { intros a b Hab.
    destruct (fwkdl.implementsNotificationExtractor a) eqn:Ha.
    - destruct (extractors s !! name_of a) eqn:Hk.
      + by rewrite AddExtractor_duplicate by (done || by eexists).
      + rewrite AddExtractor_stored by done. cbn [fst extractors].
        by rewrite lookup_insert_ne.
    - by rewrite AddExtractor_mismatch. }
  assert (Hid : forall (a : fwkdl.Plugin World),
    TypedName (fst (AddExtractor s (Some a))) = TypedName s).
  { intros a. unfold TypedName. by destruct (AddExtractor_identity s (Some a)). }
  destruct (fwkdl.implementsNotificationExtractor p) eqn:Hp;
    destruct (fwkdl.implementsNotificationExtractor q) eqn:Hq.
  - pose proof (Hstep p q Hne) as Hq'. pose proof (Hstep q p (not_eq_sym Hne)) as Hp'.
    destruct (extractors s !! name_of p) as [op|] eqn:Hkp;
      destruct (extractors s !! name_of q) as [oq|] eqn:Hkq.
    + rewrite (AddExtractor_duplicate s p), (AddExtractor_duplicate s q)
        by (done || by eexists). cbn [fst].
      by rewrite (AddExtractor_duplicate s p), (AddExtractor_duplicate s q)
        by (done || by eexists).
    + rewrite (AddExtractor_duplicate s p) by (done || by eexists). cbn [fst].
      rewrite (AddExtractor_stored s q) by done. cbn [fst].
      rewrite AddExtractor_duplicate; [done|done|].
      cbn [extractors]. rewrite lookup_insert_ne by (by apply not_eq_sym).
      by eexists.
    + rewrite (AddExtractor_duplicate s q) by (done || by eexists). cbn [fst].
      rewrite (AddExtractor_stored s p) by done. cbn [fst].
      rewrite AddExtractor_duplicate; [|done|].
      * split; [done|]. done.
      * cbn [extractors]. rewrite lookup_insert_ne by done. by eexists.
    + rewrite (AddExtractor_stored s p), (AddExtractor_stored s q) by done.
      cbn [fst].
      rewrite !AddExtractor_stored; cbn [extractors typedName gvk fst snd];
        rewrite ?lookup_insert_ne; try done; try (by apply not_eq_sym).
      split; [|done]. f_equal. by apply insert_insert_ne.
  - rewrite (AddExtractor_mismatch s q) by done. cbn [fst snd].
    rewrite (AddExtractor_mismatch _ q) by done. done.
  - rewrite (AddExtractor_mismatch s p) by done. cbn [fst snd].
    rewrite (AddExtractor_mismatch _ p) by done. done.
  - rewrite (AddExtractor_mismatch s p), (AddExtractor_mismatch s q) by done.
    cbn [fst snd].
    by rewrite (AddExtractor_mismatch s p), (AddExtractor_mismatch s q) by done.
Qed.

(** X7.  On every source built by the constructor and [AddExtractor], the key
    of an entry is the [Name] of the extractor stored there. *)
Theorem entries_are_keyed_by_Name s key p :
  reachable s -> extractors s !! key = Some p ->
  fwkplugin.Name (fwkdl.TypedName p) = key.
Proof.
  intros Hs Hp. by destruct (reachable_well_formed s Hs key p Hp).
Qed.

End SourceFacts.

(** * Properties of the flag helpers of package [options] *)

Section FlagFacts.
Import goflag options.
Context `{Strconv}.
Implicit Types (f : options.Flag) (fs : FlagSet) (m : Mem)
  (vars : gmap string Any) (ps : Process).

Lemma store_store a v m : store a v (store a v m) = store a v m.
Proof. unfold store. cbn. by rewrite insert_insert_eq. Qed.

Lemma Var_Some fs value name usage fs' :
  Var fs value name usage = Some fs' ->
  String.prefix "-" name = false /\ contains "=" name = false /\
  formal fs !! name = None /\ (name ∉ undef fs) /\
  fs' = mkFlagSet (<[name := goflag.mkFlag name usage value]> (formal fs))
          (undef fs) (output fs).
Proof.
  unfold Var.
  destruct (String.prefix "-" name); [discriminate|].
  destruct (contains "=" name); [discriminate|].
  case_bool_decide as Hdef; [discriminate|].
  case_bool_decide as Hundef; [discriminate|].
  intros [= <-]. repeat split; try done.
  destruct (formal fs !! name) eqn:E; [|done]. exfalso. apply Hdef. by eexists.
Qed.

Lemma bind_Next ty mk f def ptr fs m fs' m' :
  bind ty mk f def ptr fs m = Next fs' m' ->
  exists a,
    ptr = APtr ty (Some a) /\
    String.prefix "-" (Name f) = false /\ contains "=" (Name f) = false /\
    formal fs !! Name f = None /\ (Name f ∉ undef fs) /\
    fs' = mkFlagSet (<[Name f := goflag.mkFlag (Name f) (Usage f) (mk a)]> (formal fs))
            (undef fs) (output fs) /\
    m' = store a def m.
Proof.
  unfold bind. destruct ptr as [|v|ty' [a|]|n]; try discriminate.
  - case_bool_decide as Hty; [|discriminate]. subst ty'.
    unfold TypeVar.
    destruct (Var fs (mk a) (Name f) (Usage f)) as [fs1|] eqn:HVar; [|discriminate].
    intros [= <- <-]. apply Var_Some in HVar as (? & ? & ? & ? & ->).
    exists a. rewrite store_store. done.
  - by case_bool_decide.
Qed.

Lemma bind_Exit ty mk f def ptr fs m err fs' m' :
  bind ty mk f def ptr fs m = Exit err fs' m' ->
  fs' = fs /\ m' = m /\ (forall p, ptr <> APtr ty p) /\
  err = typeError (Name f) ptr (GoType_name ty).
Proof.
  unfold bind. destruct ptr as [|v|ty' p|n]; try (by intros [= <- <- <-]).
  case_bool_decide as Hty.
  - destruct p as [a|]; [|discriminate].
    by destruct (TypeVar mk fs a (Name f) def (Usage f) (store a def m)) as [[??]|].
  - intros [= <- <- <-]. repeat split; try done. intros p' [= ? _]. done.
Qed.

(** A pass of the loop that goes on to the next flag has defined the flag
    and stored its default. *)
Lemma addFlag_Next f vars fs m fs' m' :
  addFlag f vars fs m = Next fs' m' ->
  exists def a,
    DefValue f = AVal def /\
    vars !! Name f = Some (APtr (Val_type def) (Some a)) /\
    String.prefix "-" (Name f) = false /\ contains "=" (Name f) = false /\
    formal fs !! Name f = None /\ (Name f ∉ undef fs) /\
    fs' = mkFlagSet
            (<[Name f := goflag.mkFlag (Name f) (Usage f)
                           (definedValue f def a (Output fs))]> (formal fs))
            (undef fs) (output fs) /\
    m' = store a def m.
Proof.
  unfold addFlag.
  destruct (DefValue f) as [|def|ty p|n] eqn:Hdef; try discriminate.
  - destruct (vars !! Name f) as [ptr|] eqn:Hvar; [|discriminate].
    set (ty := Val_type def).
    assert (Hb : exists mk,
      match def with
      | VString d => bind TString stringValue f (VString d) ptr fs m
      | VInt d => bind TInt intValue f (VInt d) ptr fs m
      | VBool d => bind TBool boolValue f (VBool d) ptr fs m
      | VDuration d => bind TDuration durationValue f (VDuration d) ptr fs m
      end = bind ty mk f def ptr fs m /\ forall a, mk a = standardValue def a).
    { destruct def; eexists; split; reflexivity. }
    destruct Hb as (mk & -> & Hmk).
    destruct (bind ty mk f def ptr fs m) as [fs1 m1| |] eqn:Hbind; try discriminate.
    apply bind_Next in Hbind as (a & -> & ? & ? & Hfree & ? & -> & ->).
    unfold definedValue, Lookup. cbn [formal]. rewrite lookup_insert_eq.
    destruct (Deprecated f).
    + intros [= <- <-]. exists def, a. cbn [goflag.Name goflag.Usage Value_ undef output].
      rewrite insert_insert_eq, Hmk. done.
    + intros [= <- <-]. exists def, a. by rewrite Hmk.
  - by destruct (vars !! Name f).
  - by destruct (vars !! Name f).
Qed.

(** A pass that returns an error has changed nothing, and the error tells
    why the flag was rejected. *)
Lemma addFlag_Exit f vars fs m err fs' m' :
  addFlag f vars fs m = Exit err fs' m' ->
  fs' = fs /\ m' = m /\ rejected vars f err.
Proof.
  unfold addFlag.
  destruct (DefValue f) as [|def|ty p|n] eqn:Hdef.
  - intros [= <- <- <-]. repeat split; try done. by constructor.
  - destruct (vars !! Name f) as [ptr|] eqn:Hvar.
    + set (ty := Val_type def).
      assert (Hb : exists mk,
        match def with
        | VString d => bind TString stringValue f (VString d) ptr fs m
        | VInt d => bind TInt intValue f (VInt d) ptr fs m
        | VBool d => bind TBool boolValue f (VBool d) ptr fs m
        | VDuration d => bind TDuration durationValue f (VDuration d) ptr fs m
        end = bind ty mk f def ptr fs m).
      { destruct def; eexists; reflexivity. }
      destruct Hb as (mk & ->).
      destruct (bind ty mk f def ptr fs m) as [fs1 m1|err1 fs1 m1|] eqn:Hbind;
        try discriminate.
      * apply bind_Next in Hbind as (a & -> & ? & ? & Hfree & ? & -> & ->).
        unfold Lookup. cbn [formal]. rewrite lookup_insert_eq.
        by destruct (Deprecated f).
      * apply bind_Exit in Hbind as (-> & -> & Hptr & ->).
        intros [= <- <- <-]. repeat split; try done.
        by eapply rejected_wrong_pointer.
    + intros [= <- <- <-]. repeat split; try done.
      apply rejected_no_variable; [by rewrite Hdef | done].
  - destruct (vars !! Name f) as [ptr|] eqn:Hvar.
    + intros [= <- <- <-]. split; [done|]. split; [done|].
      pose proof (rejected_unsupported vars f ptr) as Hrej.
      rewrite Hdef in Hrej. by apply Hrej.
    + intros [= <- <- <-]. repeat split; try done.
      apply rejected_no_variable; [by rewrite Hdef | done].
  - destruct (vars !! Name f) as [ptr|] eqn:Hvar.
    + intros [= <- <- <-]. split; [done|]. split; [done|].
      pose proof (rejected_unsupported vars f ptr) as Hrej.
      rewrite Hdef in Hrej. by apply Hrej.
    + intros [= <- <- <-]. repeat split; try done.
      apply rejected_no_variable; [by rewrite Hdef | done].
Qed.


Lemma addFlags_app l1 l2 vars fs m :
  addFlags (l1 ++ l2) vars fs m =
  match addFlags l1 vars fs m with
  | Next fs1 m1 => addFlags l2 vars fs1 m1
  | other => other
  end.
Proof.
  revert fs m. induction l1 as [|f l1 IH]; intros fs m; [done|].
  cbn [app addFlags]. by destruct (addFlag f vars fs m).
Qed.

(** What a complete run of the loop has done. *)
Lemma addFlags_Next flags vars fs m fs' m' :
  addFlags flags vars fs m = Next fs' m' ->
  NoDup (Name <$> flags) /\
  undef fs' = undef fs /\ output fs' = output fs /\ written m' = written m /\
  (forall name fl, formal fs !! name = Some fl -> formal fs' !! name = Some fl) /\
  (forall name, name ∉ Name <$> flags -> formal fs' !! name = formal fs !! name) /\
  (forall f, f ∈ flags ->
     formal fs !! Name f = None /\
     String.prefix "-" (Name f) = false /\ contains "=" (Name f) = false /\
     exists def a,
       DefValue f = AVal def /\
       vars !! Name f = Some (APtr (Val_type def) (Some a)) /\
       formal fs' !! Name f =
         Some (goflag.mkFlag (Name f) (Usage f) (definedValue f def a (Output fs)))) /\
  (forall a, (forall g ty, g ∈ flags -> vars !! Name g <> Some (APtr ty (Some a))) ->
     heap m' !! a = heap m !! a).
Proof.
  revert fs m. induction flags as [|f rest IH]; intros fs m.
  - intros [= <- <-]. split; [constructor|]. do 3 (split; [done|]).
    split; [done|]. split; [done|]. split; [|done].
    intros g Hg. by apply elem_of_nil in Hg.
  - cbn [addFlags].
    destruct (addFlag f vars fs m) as [fs1 m1| |] eqn:Hstep; try discriminate.
    intros Hrest.
    apply addFlag_Next in Hstep
      as (def & a & Hdef & Hvar & Hdash & Heq & Hfree & Hundef & Hfs1 & Hm1).
    destruct (IH _ _ Hrest) as (Hnd & Hu & Ho & Hw & Hmono & Hother & Hall & Hheap).
    assert (Hfs1f : formal fs1 !! Name f =
              Some (goflag.mkFlag (Name f) (Usage f) (definedValue f def a (Output fs)))).
    { subst fs1. cbn [formal]. by rewrite lookup_insert_eq. }
    assert (Hout : Output fs1 = Output fs) by (by subst fs1).
    assert (Hfresh : Name f ∉ Name <$> rest).
    { intros (g & Hg & Hin)%list_elem_of_fmap.
      destruct (Hall g Hin) as (Hnone & _). rewrite <- Hg in Hnone. congruence. }
    split; [rewrite fmap_cons; by constructor|].
    split; [rewrite Hu; by subst fs1|].
    split; [rewrite Ho; by subst fs1|].
    split; [rewrite Hw; by subst m1|].
    split.
    { intros name fl Hfl. apply Hmono. subst fs1. cbn [formal].
      rewrite lookup_insert_ne; [done|]. intros <-. congruence. }
    split.
    { intros name Hname. rewrite fmap_cons in Hname.
      apply not_elem_of_cons in Hname as [Hne Hname].
      rewrite (Hother _ Hname). subst fs1. cbn [formal].
      by rewrite lookup_insert_ne. }
    split.
    { intros g [->|Hg]%elem_of_cons.
      - repeat split; try done. exists def, a. repeat split; try done.
        by apply Hmono.
      - destruct (Hall g Hg) as (Hnone & Hd & He & def' & a' & Hdef' & Hvar' & Hfl').
        split.
        { subst fs1. cbn [formal] in Hnone.
          by apply lookup_insert_None in Hnone as [? _]. }
        split; [done|]. split; [done|].
        exists def', a'. rewrite <- Hout. done. }
    intros b Hb. rewrite Hheap.
    + subst m1. cbn [store heap]. rewrite lookup_insert_ne; [done|].
      intros <-. eapply (Hb f); [left|exact Hvar].
    + intros g ty Hg. apply Hb. by right.
Qed.

(** A run of the loop that returns an error stopped at the first flag it
    rejects, after a complete run over the flags before it. *)
Lemma addFlags_Exit flags vars fs m err fs' m' :
  addFlags flags vars fs m = Exit err fs' m' ->
  exists l1 f l2,
    flags = l1 ++ f :: l2 /\
    addFlags l1 vars fs m = Next fs' m' /\
    rejected vars f err.
Proof.
  revert fs m. induction flags as [|f rest IH]; intros fs m; [discriminate|].
  cbn [addFlags].
  destruct (addFlag f vars fs m) as [fs1 m1|err1 fs1 m1|] eqn:Hstep; try discriminate.
  - intros Hrest. destruct (IH _ _ Hrest) as (l1 & g & l2 & -> & Hl1 & Hrej).
    exists (f :: l1), g, l2. split; [done|]. split; [|done].
    cbn [addFlags]. by rewrite Hstep.
  - intros [= <- <- <-]. apply addFlag_Exit in Hstep as (-> & -> & Hrej).
    by exists [], f, rest.
Qed.

(** How [AddFlags] relates to its loop. *)
Lemma AddFlags_Done (fs : FlagSetRef) flags vars ps r (fs' : FlagSetRef) ps' :
  AddFlags fs flags vars ps = Done r fs' ps' ->
  length flags = size vars ->
  (forall given, fs = otherSet given -> CommandLine ps' = CommandLine ps) /\
  match r with
  | None =>
      addFlags flags vars (target fs ps) (mem ps) = Next (target fs' ps') (mem ps')
  | Some err =>
      addFlags flags vars (target fs ps) (mem ps) = Exit err (target fs' ps') (mem ps')
  end.
Proof.
  unfold AddFlags. intros Hrun Hlen. apply Nat.eqb_eq in Hlen. rewrite Hlen in Hrun.
  cbn [negb] in Hrun.
  destruct (addFlags flags vars (target fs ps) (mem ps)) as [fs1 m1|err fs1 m1|];
    [| |discriminate].
  - destruct fs as [| |fs0]; cbn [finish] in Hrun; injection Hrun as <- <- <-; done.
  - destruct fs as [| |fs0]; cbn [finish] in Hrun; injection Hrun as <- <- <-; done.
Qed.

Lemma AddFlags_mismatch (fs : FlagSetRef) flags vars ps :
  length flags <> size vars ->
  AddFlags fs flags vars ps =
  Done (Some (errors.errorString
                ("mismatch flags (" +:+ verb_d (length flags) +:+ ") and vars ("
                 +:+ verb_d (size vars) +:+ ") count"))) fs ps.
Proof.
  intros Hlen. unfold AddFlags. apply Nat.eqb_neq in Hlen. by rewrite Hlen.
Qed.

End FlagFacts.

Section FlagProperties.
Import goflag options.
Context `{Strconv}.
Implicit Types (f : options.Flag) (m : Mem) (vars : gmap string Any) (ps : Process)
  (fs : FlagSetRef).

Lemma AddFlags_success_counts fs (flags : list options.Flag) vars ps (fs' : FlagSetRef) ps' :
  AddFlags fs flags vars ps = Done None fs' ps' -> length flags = size vars.
Proof.
  intros Hrun. destruct (decide (length flags = size vars)) as [|Hne]; [done|].
  rewrite AddFlags_mismatch in Hrun by done. discriminate.
Qed.

(** X8.  When [AddFlags] returns nil, the listed names are pairwise
    different, well formed and were not defined before, and every listed flag
    is defined in the flag set the call worked on: under its name, with its
    usage, with the standard value for the type of its default, sharing the
    variable given for it in [vars], and wrapped for deprecation exactly when
    the flag is marked so. *)
Theorem AddFlags_defines_every_flag fs (flags : list options.Flag) vars ps (fs' : FlagSetRef) ps' :
  AddFlags fs flags vars ps = Done None fs' ps' ->
  NoDup (Name <$> flags) /\
  forall f, f ∈ flags ->
    formal (target fs ps) !! Name f = None /\
    String.prefix "-" (Name f) = false /\ contains "=" (Name f) = false /\
    exists def a,
      DefValue f = AVal def /\
      vars !! Name f = Some (APtr (Val_type def) (Some a)) /\
      Lookup (target fs' ps') (Name f) =
        Some (goflag.mkFlag (Name f) (Usage f)
                (definedValue f def a (Output (target fs ps)))).
Proof.
  intros Hrun. pose proof (AddFlags_success_counts _ _ _ _ _ _ Hrun) as Hlen.
  destruct (AddFlags_Done _ _ _ _ _ _ _ Hrun Hlen) as (_ & Hloop).
  apply addFlags_Next in Hloop as (Hnd & _ & _ & _ & _ & _ & Hall & _).
  split; [done|]. intros f Hf. exact (Hall f Hf).
Qed.

(** X9.  When [AddFlags] returns nil, a variable holds the default of the
    last listed flag bound to it. *)
Theorem AddFlags_stores_the_defaults fs (l1 l2 : list options.Flag) f vars ps
    (fs' : FlagSetRef) ps' def ty a :
  AddFlags fs (l1 ++ f :: l2) vars ps = Done None fs' ps' ->
  DefValue f = AVal def ->
  vars !! Name f = Some (APtr ty (Some a)) ->
  (forall g ty', g ∈ l2 -> vars !! Name g <> Some (APtr ty' (Some a))) ->
  heap (mem ps') !! a = Some def.
Proof.
  intros Hrun Hdef Hvar Hlast.
  pose proof (AddFlags_success_counts _ _ _ _ _ _ Hrun) as Hlen.
  destruct (AddFlags_Done _ _ _ _ _ _ _ Hrun Hlen) as (_ & Hloop).
  rewrite addFlags_app in Hloop.
  destruct (addFlags l1 vars (target fs ps) (mem ps)) as [fs1 m1| |];
    try discriminate.
  cbn [addFlags] in Hloop.
  destruct (addFlag f vars fs1 m1) as [fs2 m2| |] eqn:Hstep; try discriminate.
  apply addFlag_Next in Hstep as (def' & a' & Hdef' & Hvar' & _ & _ & _ & _ & _ & ->).
  rewrite Hdef in Hdef'. injection Hdef' as <-.
  rewrite Hvar in Hvar'. injection Hvar' as -> <-.
  apply addFlags_Next in Hloop as (_ & _ & _ & _ & _ & _ & _ & Hheap).
  rewrite (Hheap a Hlast). cbn [store heap]. by rewrite lookup_insert_eq.
Qed.

(** X10.  Whenever [AddFlags] returns, with or without an error: nothing was
    written to any writer; every flag defined before is still defined, with
    the same value; the names set before being defined and the output of the
    flag set are as before; a variable to which no entry of [vars] points
    keeps its content; and when the flag set given is another one than
    [flag.CommandLine], the global set is not touched. *)
Theorem AddFlags_leaves_the_rest_alone fs (flags : list options.Flag) vars ps r
    (fs' : FlagSetRef) ps' :
  AddFlags fs flags vars ps = Done r fs' ps' ->
  written (mem ps') = written (mem ps) /\
  (forall name fl, Lookup (target fs ps) name = Some fl ->
                   Lookup (target fs' ps') name = Some fl) /\
  undef (target fs' ps') = undef (target fs ps) /\
  output (target fs' ps') = output (target fs ps) /\
  (forall a, (forall name ty, vars !! name <> Some (APtr ty (Some a))) ->
             heap (mem ps') !! a = heap (mem ps) !! a) /\
  (forall given, fs = otherSet given -> CommandLine ps' = CommandLine ps).
Proof.
  intros Hrun. destruct (decide (length flags = size vars)) as [Hlen|Hne].
  - destruct (AddFlags_Done _ _ _ _ _ _ _ Hrun Hlen) as (Hcl & Hloop).
    assert (Hnext : exists l, addFlags l vars (target fs ps) (mem ps)
                              = Next (target fs' ps') (mem ps')).
    { destruct r as [err|]; [|by exists flags].
      apply addFlags_Exit in Hloop as (l1 & _ & _ & _ & Hl1 & _). by exists l1. }
    destruct Hnext as (l & Hl).
    apply addFlags_Next in Hl as (_ & Hu & Ho & Hw & Hmono & _ & _ & Hheap).
    repeat split; try done. intros a Ha. apply Hheap. intros g ty _. apply Ha.
  - rewrite AddFlags_mismatch in Hrun by done. by injection Hrun as <- <- <-.
Qed.

(** X11.  The errors of [AddFlags].  With as many flags as variables it
    returns an error exactly when the loop meets a flag it rejects: one
    without default, without variable, with a variable of the wrong pointer
    type, or with a default of an unsupported type.  The error is the one of
    the first such flag, the flags before it have been defined as by a
    complete run, and nothing of the rejected flag or of the flags after it
    has been done.  With different counts the call fails at once and changes
    nothing. *)
Theorem AddFlags_errors fs (flags : list options.Flag) vars ps :
  (length flags <> size vars ->
   AddFlags fs flags vars ps =
   Done (Some (errors.errorString
                 ("mismatch flags (" +:+ verb_d (length flags) +:+ ") and vars ("
                  +:+ verb_d (size vars) +:+ ") count"))) fs ps) /\
  (length flags = size vars ->
   forall err (fs' : FlagSetRef) ps',
     AddFlags fs flags vars ps = Done (Some err) fs' ps' ->
     exists l1 f l2,
       flags = l1 ++ f :: l2 /\
       rejected vars f err /\
       addFlags l1 vars (target fs ps) (mem ps) = Next (target fs' ps') (mem ps')).
Proof.
  split; [apply AddFlags_mismatch|].
  intros Hlen err fs' ps' Hrun.
  destruct (AddFlags_Done _ _ _ _ _ _ _ Hrun Hlen) as (_ & Hloop).
  apply addFlags_Exit in Hloop as (l1 & f & l2 & -> & Hl1 & Hrej).
  by exists l1, f, l2.
Qed.

Lemma Set_plain v s m md :
  plain v = true -> heap md = heap m ->
  (Set_ v s md).1.1 = v /\
  (Set_ v s md).1.2 = (Set_ v s m).1.2 /\
  heap (Set_ v s md).2 = heap (Set_ v s m).2 /\
  written (Set_ v s md).2 = written md.
Proof.
  intros Hplain Hheap.
  destruct v as [p|p|p|p|set get|]; try discriminate; cbn.
  - by rewrite Hheap.
  - destruct (ParseInt s). cbn. by rewrite Hheap.
  - destruct (ParseBool s). cbn. by rewrite Hheap.
  - destruct (ParseDuration s). cbn. by rewrite Hheap.
  - rewrite Hheap. by destruct (set s (heap m)).
Qed.

(** One [Set] through the wrapper, in terms of the [Set] of the wrapped
    value. *)
Lemma Set_deprecated inner warned name replacedBy w s m md :
  plain inner = true -> heap md = heap m ->
  let r0 := Set_ inner s m in
  let r := Set_ (deprecatedValue inner warned name replacedBy w) s md in
  r.1.1 = deprecatedValue inner (warned || succeeded r0.1.2) name replacedBy w /\
  r.1.2 = r0.1.2 /\ heap r.2 = heap r0.2 /\
  written r.2 =
    written md ++
    if negb warned && succeeded r0.1.2 then [(w, warning name replacedBy)] else [].
Proof.
  intros Hplain Hheap. cbv zeta.
  destruct (Set_plain inner s m md Hplain Hheap) as (Hv & He & Hh & Hw).
  cbn [Set_]. destruct (Set_ inner s md) as [[v1 err] m1]. cbn in Hv, He, Hh, Hw.
  subst v1. rewrite <- He, <- Hh. unfold warning.
  destruct err as [e|]; cbn.
  - by rewrite orb_false_r, andb_false_r, app_nil_r.
  - destruct warned; cbn.
    + by rewrite app_nil_r.
    + destruct (replacedBy =? "")%string; cbn; by rewrite Hw.
Qed.

Lemma SetAll_deprecated inner warned name replacedBy w args m md :
  plain inner = true -> heap md = heap m ->
  let r0 := SetAll inner args m in
  let r := SetAll (deprecatedValue inner warned name replacedBy w) args md in
  r.1.1 = deprecatedValue inner (warned || existsb succeeded r0.1.2) name replacedBy w /\
  r.1.2 = r0.1.2 /\ heap r.2 = heap r0.2 /\
  written r.2 =
    written md ++
    if negb warned && existsb succeeded r0.1.2
    then [(w, warning name replacedBy)] else [].
Proof.
  intros Hplain. revert warned m md.
  induction args as [|s rest IH]; intros warned m md Hheap; cbv zeta.
  - cbn. by rewrite orb_false_r, andb_false_r, app_nil_r.
  - cbn [SetAll].
    destruct (Set_deprecated inner warned name replacedBy w s m md Hplain Hheap)
      as (Hd & He & Hh & Hw).
    destruct (Set_plain inner s m m Hplain eq_refl) as (Hv & _ & _ & _).
    destruct (Set_ (deprecatedValue inner warned name replacedBy w) s md)
      as [[d1 err1] md1].
    destruct (Set_ inner s m) as [[v1 err] m1].
    cbn in Hd, He, Hh, Hw, Hv. subst d1 err1 v1.
    specialize (IH (warned || succeeded err) m1 md1 Hh). cbv zeta in IH.
    destruct IH as (IHd & IHe & IHh & IHw).
    destruct (SetAll (deprecatedValue inner (warned || succeeded err) name replacedBy w)
                rest md1) as [[d2 errs2] md2].
    destruct (SetAll inner rest m1) as [[v2 errs] m2].
    cbn in IHd, IHe, IHh, IHw |- *. subst d2 errs2.
    rewrite IHw, Hw, orb_assoc.
    split; [done|]. split; [done|]. split; [done|].
    rewrite <- app_assoc. f_equal.
    destruct warned, (succeeded err); cbn; by rewrite ?app_nil_r.
Qed.

(** X12.  A deprecated flag warns once.  Over any sequence of [Set] calls on
    a wrapper that has not warned yet, the errors returned and the content
    of the variables are those of the wrapped value alone, and the writer
    receives exactly one warning if some call succeeded and nothing
    otherwise; a call that fails does not use up the warning. *)
Theorem deprecated_flag_warns_once inner name replacedBy w args m :
  plain inner = true ->
  let r0 := SetAll inner args m in
  let r := SetAll (deprecatedValue inner false name replacedBy w) args m in
  r.1.2 = r0.1.2 /\ heap r.2 = heap r0.2 /\
  written r.2 =
    written m ++
    if existsb succeeded r.1.2 then [(w, warning name replacedBy)] else [].
Proof.
  intros Hplain. cbv zeta.
  destruct (SetAll_deprecated inner false name replacedBy w args m m Hplain eq_refl)
    as (_ & He & Hh & Hw).
  rewrite He. by rewrite Hw.
Qed.

Lemma Get_standard_or_deprecated (v : Value) h :
  standard_or_deprecated v = true ->
  Get v h = None \/ exists x, Get v h = Some (AVal x).
Proof.
  destruct v as [p|p|p|p|set get|inner ? ? ? ?]; try discriminate; intros _; cbn;
    eauto.
Qed.

Lemma definedValue_standard f def a w :
  standard_or_deprecated (definedValue f def a w) = true.
Proof. unfold definedValue. by destruct (Deprecated f), def. Qed.

(** X13.  The getters cannot read the flags [AddFlags] defines.  On a flag
    set that held only standard values and deprecation wrappers before the
    call (an empty one, for instance), [GetStringFlagValue] and
    [GetBoolFlagValue] return an error for every name after [AddFlags]
    returned: the standard values hand out their content, not a pointer to
    it, and the wrapper is no [flag.Getter]. *)
Theorem getters_fail_after_AddFlags fs (flags : list options.Flag) vars ps r
    (fs' : FlagSetRef) ps' name :
  AddFlags fs flags vars ps = Done r fs' ps' ->
  (forall n fl, Lookup (target fs ps) n = Some fl ->
                standard_or_deprecated (Value_ fl) = true) ->
  (exists err, GetStringFlagValue fs' name ps' = Done ("", Some err) fs' ps') /\
  (exists err, GetBoolFlagValue fs' name ps' = Done (false, Some err) fs' ps').
Proof.
  intros Hrun Hstd.
  assert (Hstd' : forall n fl, Lookup (target fs' ps') n = Some fl ->
                    standard_or_deprecated (Value_ fl) = true).
  { destruct (decide (length flags = size vars)) as [Hlen|Hne].
    - destruct (AddFlags_Done _ _ _ _ _ _ _ Hrun Hlen) as (_ & Hloop).
      assert (Hnext : exists l, addFlags l vars (target fs ps) (mem ps)
                                = Next (target fs' ps') (mem ps')).
      { destruct r as [err|]; [|by exists flags].
        apply addFlags_Exit in Hloop as (l1 & _ & _ & _ & Hl1 & _). by exists l1. }
      destruct Hnext as (l & Hl).
      apply addFlags_Next in Hl as (_ & _ & _ & _ & _ & Hother & Hall & _).
      intros n fl Hfl. destruct (decide (n ∈ Name <$> l)) as [Hin|Hout].
      + apply list_elem_of_fmap in Hin as (g & -> & Hg).
        destruct (Hall g Hg) as (_ & _ & _ & def & a & _ & _ & Hdefd).
        unfold Lookup in Hfl. rewrite Hdefd in Hfl. injection Hfl as <-.
        apply definedValue_standard.
      + unfold Lookup in Hfl. rewrite (Hother n Hout) in Hfl. by eapply Hstd.
    - rewrite AddFlags_mismatch in Hrun by done. by injection Hrun as <- <- <-. }
  unfold GetStringFlagValue, GetBoolFlagValue.
  destruct (Lookup (target fs' ps') name) as [fl|] eqn:Hfl; [|by eauto].
  destruct (Get_standard_or_deprecated (Value_ fl) (heap (mem ps')) (Hstd' _ _ Hfl))
    as [->|(x & ->)]; [by eauto|].
  split; eexists; reflexivity.
Qed.

(** X14.  [GetStringFlagValue] returns a value without error only for a flag
    whose value is a [flag.Getter] of the user's own that hands out a non-nil
    pointer to a string; the result is then the content of that variable. *)
Theorem GetStringFlagValue_success fs name ps v (fs' : FlagSetRef) ps' :
  GetStringFlagValue fs name ps = Done (v, None) fs' ps' ->
  exists fl set get a,
    Lookup (target fs ps) name = Some fl /\
    Value_ fl = userValue set (Some get) /\
    get (heap (mem ps)) = APtr TString (Some a) /\
    v = match heap (mem ps) !! a with Some (VString s) => s | _ => "" end /\
    fs' = fs /\ ps' = ps.
Proof.
  unfold GetStringFlagValue.
  destruct (Lookup (target fs ps) name) as [fl|] eqn:Hfl; [|discriminate].
  destruct (Value_ fl) as [p|p|p|p|set [get|]|] eqn:Hv; cbn; try discriminate.
  destruct (get (heap (mem ps))) as [|x|[| | | |n] [a|]|n] eqn:Hget; try discriminate.
  intros [= <- <- <-]. by exists fl, set, get, a.
Qed.

End FlagProperties.

Section MoreFlagProperties.
Import goflag options.
Context `{Strconv}.

(** X15.  [GetBoolFlagValue] returns a value without error only for a flag
    whose value is a [flag.Getter] of the user's own that hands out a non-nil
    pointer to a bool; the result is then the content of that variable. *)
Theorem GetBoolFlagValue_success (fs : FlagSetRef) name ps v
    (fs' : FlagSetRef) ps' :
  GetBoolFlagValue fs name ps = Done (v, None) fs' ps' ->
  exists fl set get a,
    Lookup (target fs ps) name = Some fl /\
    Value_ fl = userValue set (Some get) /\
    get (heap (mem ps)) = APtr TBool (Some a) /\
    v = match heap (mem ps) !! a with Some (VBool b) => b | _ => false end /\
    fs' = fs /\ ps' = ps.
Proof.
  unfold GetBoolFlagValue.
  destruct (Lookup (target fs ps) name) as [fl|] eqn:Hfl; [|discriminate].
  destruct (Value_ fl) as [p|p|p|p|set [get|]|] eqn:Hv; cbn; try discriminate.
  destruct (get (heap (mem ps))) as [|x|[| | | |n] [a|]|n] eqn:Hget; try discriminate.
  intros [= <- <- <-]. by exists fl, set, get, a.
Qed.

End MoreFlagProperties.

(** * The further properties on concrete inputs *)

Section Instances.
Import goflag options flag_samples.

Lemma registrations_are_permanent_witness :
  let ops : list (Op Journal unit) :=
    [OpAddExtractor (Some tracker_other_type); OpNotify [] live added;
     OpAddExtractor (Some broken); OpCollect live tt] in
  extractors one !! "lora-tracker" = Some tracker /\
  extractors (fst (run ops (one, env0))) !! "lora-tracker" = Some tracker.
Proof.
  intros ops.
  assert (Hl : extractors one !! "lora-tracker" = Some tracker) by reflexivity.
  split; [exact Hl|].
  exact (registrations_are_permanent ops one env0 "lora-tracker" tracker Hl).
Defined.

Lemma Notify_without_extractors_witness :
  extractors fresh = ∅ /\ sync.enumerates [] (extractors fresh) /\
  Notify [] fresh done_ctx deleted env0 = (tt, env0).
Proof.
  assert (He : extractors fresh = ∅) by reflexivity.
  assert (Hn : sync.enumerates [] (extractors fresh)).
  { unfold sync.enumerates. rewrite He, map_to_list_empty. reflexivity. }
  split; [exact He|]. split; [exact Hn|].
  exact (Notify_without_extractors fresh [] done_ctx deleted env0 He Hn).
Defined.

Lemma AddExtractor_commutes_witness :
  name_of tracker <> name_of broken /\
  fst (AddExtractor (fst (AddExtractor fresh (Some tracker))) (Some broken)) =
  fst (AddExtractor (fst (AddExtractor fresh (Some broken))) (Some tracker)) /\
  snd (AddExtractor (fst (AddExtractor fresh (Some tracker))) (Some broken)) =
  snd (AddExtractor fresh (Some broken)).
Proof.
  assert (Hne : name_of tracker <> name_of broken) by discriminate.
  split; [exact Hne|].
  exact (AddExtractor_commutes fresh tracker broken Hne).
Defined.

Lemma entries_are_keyed_by_Name_witness :
  reachable two /\ extractors two !! "broken" = Some broken /\
  fwkplugin.Name (fwkdl.TypedName broken) = "broken".
Proof.
  assert (Hr : reachable two) by (unfold two, one, fresh; built).
  assert (Hl : extractors two !! "broken" = Some broken) by reflexivity.
  split; [exact Hr|]. split; [exact Hl|].
  exact (entries_are_keyed_by_Name two "broken" broken Hr Hl).
Defined.

Lemma AddFlags_defines_every_flag_witness :
  AddFlags (otherSet emptySet) sampleFlags sampleVars process0
    = Done None (otherSet definedSet) afterwards /\
  NoDup (Name <$> sampleFlags) /\
  forall f, f ∈ sampleFlags ->
    formal emptySet !! Name f = None /\
    String.prefix "-" (Name f) = false /\ contains "=" (Name f) = false /\
    exists def a,
      DefValue f = AVal def /\
      sampleVars !! Name f = Some (APtr (Val_type def) (Some a)) /\
      Lookup definedSet (Name f) =
        Some (goflag.mkFlag (Name f) (Usage f) (definedValue f def a Stderr)).
Proof.
  assert (Ha : AddFlags (otherSet emptySet) sampleFlags sampleVars process0
               = Done None (otherSet definedSet) afterwards) by reflexivity.
  split; [exact Ha|].
  exact (AddFlags_defines_every_flag (otherSet emptySet) sampleFlags sampleVars process0
           (otherSet definedSet) afterwards Ha).
Defined.

Lemma AddFlags_stores_the_defaults_witness :
  AddFlags (otherSet emptySet) ([portFlag] ++ poolFlag :: [verboseFlag]) sampleVars process0
    = Done None (otherSet definedSet) afterwards /\
  DefValue poolFlag = AVal (VString "default") /\
  sampleVars !! Name poolFlag = Some (APtr TString (Some 2%nat)) /\
  (forall g ty', g ∈ [verboseFlag] ->
     sampleVars !! Name g <> Some (APtr ty' (Some 2%nat))) /\
  heap (mem afterwards) !! 2%nat = Some (VString "default").
Proof.
  assert (Ha : AddFlags (otherSet emptySet) ([portFlag] ++ poolFlag :: [verboseFlag])
                 sampleVars process0 = Done None (otherSet definedSet) afterwards)
    by reflexivity.
  assert (Hd : DefValue poolFlag = AVal (VString "default")) by reflexivity.
  assert (Hv : sampleVars !! Name poolFlag = Some (APtr TString (Some 2%nat)))
    by reflexivity.
  assert (Hl : forall g ty', g ∈ [verboseFlag] ->
                 sampleVars !! Name g <> Some (APtr ty' (Some 2%nat))).
  { intros g ty' Hg. apply list_elem_of_singleton in Hg. subst g. discriminate. }
  split; [exact Ha|]. split; [exact Hd|]. split; [exact Hv|]. split; [exact Hl|].
  exact (AddFlags_stores_the_defaults (otherSet emptySet) [portFlag] [verboseFlag] poolFlag
           sampleVars process0 (otherSet definedSet) afterwards (VString "default")
           TString 2%nat Ha Hd Hv Hl).
Defined.

(** A call that fails at the third flag: the first two stay defined. *)
Lemma AddFlags_leaves_the_rest_alone_witness :
  AddFlags (otherSet emptySet) sampleFlags wrongVars process0
    = Done (Some (errors.errorString
                    (("flag " +:+ dquote +:+ "verbose" +:+ dquote)
                     +:+ ": variable must be *bool, got *string")))
        (otherSet partlySet) partly /\
  written (mem partly) = written (mem process0) /\
  (forall name fl, Lookup emptySet name = Some fl -> Lookup partlySet name = Some fl) /\
  undef partlySet = undef emptySet /\
  output partlySet = output emptySet /\
  (forall a, (forall name ty, wrongVars !! name <> Some (APtr ty (Some a))) ->
             heap (mem partly) !! a = heap (mem process0) !! a) /\
  (forall given, otherSet emptySet = otherSet given ->
                 CommandLine partly = CommandLine process0).
Proof.
  assert (Ha : AddFlags (otherSet emptySet) sampleFlags wrongVars process0
    = Done (Some (errors.errorString
                    (("flag " +:+ dquote +:+ "verbose" +:+ dquote)
                     +:+ ": variable must be *bool, got *string")))
        (otherSet partlySet) partly) by reflexivity.
  split; [exact Ha|].
  exact (AddFlags_leaves_the_rest_alone (otherSet emptySet) sampleFlags wrongVars process0
           _ (otherSet partlySet) partly Ha).
Defined.

Lemma AddFlags_errors_witness :
  length sampleFlags = size wrongVars /\
  exists l1 f l2,
    sampleFlags = l1 ++ f :: l2 /\
    rejected wrongVars f
      (errors.errorString
         (("flag " +:+ dquote +:+ "verbose" +:+ dquote)
          +:+ ": variable must be *bool, got *string")) /\
    addFlags l1 wrongVars emptySet (mem process0) = Next partlySet (mem partly).
Proof.
  assert (Hlen : length sampleFlags = size wrongVars) by reflexivity.
  split; [exact Hlen|].
  exact (proj2 (AddFlags_errors (otherSet emptySet) sampleFlags wrongVars process0) Hlen
           _ (otherSet partlySet) partly eq_refl).
Defined.

Example AddFlags_is_not_atomic :
  (map_to_list (formal partlySet)).*1 = ["pool-name"; "port"] /\
  map_to_list (heap (mem partly)) = [(2%nat, VString "default"); (1%nat, VInt 8080)].
Proof. split; reflexivity. Qed.

(** Given [flag.CommandLine] itself, or nil, the flags are defined on the
    global set. *)
Example AddFlags_on_the_global_set :
  let defined (r : Result (option errors.error)) :=
    match r with
    | Done None _ ps => (map_to_list (formal (CommandLine ps))).*1
    | _ => []
    end in
  defined (AddFlags globalSet [portFlag] {[ "port" := APtr TInt (Some 1%nat) ]} process0)
    = ["port"] /\
  defined (AddFlags nilSet [portFlag] {[ "port" := APtr TInt (Some 1%nat) ]} process0)
    = ["port"] /\
  defined (AddFlags (otherSet emptySet) [portFlag]
             {[ "port" := APtr TInt (Some 1%nat) ]} process0) = [].
Proof. vm_compute. repeat split. Qed.

Example AddFlags_repeated_name_panics :
  AddFlags (otherSet emptySet) [portFlag; portFlag]
    {[ "port" := APtr TInt (Some 1%nat); "other" := ANil ]} process0 = Panicked.
Proof. reflexivity. Qed.

Lemma deprecated_flag_warns_once_witness :
  let args := ["x"; "9090"; "9090"] in
  let m := mkMem ∅ [] in
  let r0 := SetAll (intValue 1) args m in
  let r := SetAll (deprecatedValue (intValue 1) false "grpc-port" "" Stderr) args m in
  plain (intValue 1) = true /\
  r.1.2 = r0.1.2 /\ heap r.2 = heap r0.2 /\
  written r.2 =
    written m ++
    if existsb succeeded r.1.2 then [(Stderr, warning "grpc-port" "")] else [].
Proof.
  intros args m r0 r. split; [reflexivity|].
  exact (deprecated_flag_warns_once (intValue 1) "grpc-port" "" Stderr args m eq_refl).
Defined.

Lemma getters_fail_after_AddFlags_witness :
  AddFlags (otherSet emptySet) sampleFlags sampleVars process0
    = Done None (otherSet definedSet) afterwards /\
  (forall n fl, Lookup emptySet n = Some fl ->
                standard_or_deprecated (Value_ fl) = true) /\
  (exists err, GetStringFlagValue (otherSet definedSet) "pool-name" afterwards
               = Done ("", Some err) (otherSet definedSet) afterwards) /\
  (exists err, GetBoolFlagValue (otherSet definedSet) "pool-name" afterwards
               = Done (false, Some err) (otherSet definedSet) afterwards).
Proof.
  assert (Ha : AddFlags (otherSet emptySet) sampleFlags sampleVars process0
               = Done None (otherSet definedSet) afterwards) by reflexivity.
  assert (He : forall n fl, Lookup emptySet n = Some fl ->
                 standard_or_deprecated (Value_ fl) = true).
  { intros n fl Hfl. unfold Lookup, emptySet in Hfl. cbn in Hfl.
    rewrite lookup_empty in Hfl. discriminate. }
  split; [exact Ha|]. split; [exact He|].
  exact (getters_fail_after_AddFlags (otherSet emptySet) sampleFlags sampleVars process0
           None (otherSet definedSet) afterwards "pool-name" Ha He).
Defined.

Example getters_fail_on_defined_flags :
  GetStringFlagValue (otherSet definedSet) "pool-name" afterwards =
    Done ("", Some (errors.errorString
                      "flag pool-name value does not support flag.Getter interface"))
      (otherSet definedSet) afterwards /\
  GetBoolFlagValue (otherSet definedSet) "verbose" afterwards =
    Done (false, Some (errors.errorString "flag verbose is not a bool type, got bool"))
      (otherSet definedSet) afterwards.
Proof. split; reflexivity. Qed.

Lemma GetStringFlagValue_success_witness :
  GetStringFlagValue (otherSet customSet) "region" customProcess
    = Done ("eu-west", None) (otherSet customSet) customProcess /\
  exists fl set get a,
    Lookup customSet "region" = Some fl /\
    Value_ fl = userValue set (Some get) /\
    get (heap (mem customProcess)) = APtr TString (Some a) /\
    "eu-west" = match heap (mem customProcess) !! a with
                | Some (VString s) => s
                | _ => ""
                end /\
    otherSet customSet = otherSet customSet /\ customProcess = customProcess.
Proof.
  assert (Hg : GetStringFlagValue (otherSet customSet) "region" customProcess
               = Done ("eu-west", None) (otherSet customSet) customProcess) by reflexivity.
  split; [exact Hg|].
  exact (GetStringFlagValue_success (otherSet customSet) "region" customProcess "eu-west"
           (otherSet customSet) customProcess Hg).
Defined.

Lemma GetBoolFlagValue_success_witness :
  GetBoolFlagValue (otherSet customSet) "dry-run" customProcess
    = Done (true, None) (otherSet customSet) customProcess /\
  exists fl set get a,
    Lookup customSet "dry-run" = Some fl /\
    Value_ fl = userValue set (Some get) /\
    get (heap (mem customProcess)) = APtr TBool (Some a) /\
    true = match heap (mem customProcess) !! a with
           | Some (VBool b) => b
           | _ => false
           end /\
    otherSet customSet = otherSet customSet /\ customProcess = customProcess.
Proof.
  assert (Hg : GetBoolFlagValue (otherSet customSet) "dry-run" customProcess
               = Done (true, None) (otherSet customSet) customProcess) by reflexivity.
  split; [exact Hg|].
  exact (GetBoolFlagValue_success (otherSet customSet) "dry-run" customProcess true
           (otherSet customSet) customProcess Hg).
Defined.

End Instances.
